(** * In-memory record store: a shallow embedding of [InMemoryDBImpl]

    The C++ class keeps two hash tables,
    [records_ : recordId -> (field -> value)] and
    [ttlMap_ : recordId -> expiration instant], and reads a monotonic
    clock.  Every member function is translated below into a function over
    an explicit store value and an explicit clock reading [now].

    Conventions of the embedding:
    - a mutating member function returns the new store (next to its C++
      result, when it has one); a [const] member function only reads it;
    - one call sees one clock reading: the instants at which a single call
      reads [steady_clock::now()] are not told apart;
    - clock readings, expiration instants and the counter of
      [expireRecords] are unbounded integers (the 64-bit tick count and
      the [int] counter do not overflow in any run that can take place);
      the two places where the code narrows a number to [int], the
      [static_cast] in [backup] and [std::stoi] in [restore], are modelled
      with their range. *)

From Stdlib Require Import ZArith Ascii String Decimal DecimalString
  DecimalPos.
From stdpp Require Import base tactics option list sorting gmap fin_maps
  strings.

Local Open Scope Z_scope.

(** ** What the C++ standard leaves to the implementation

    - [std::chrono::steady_clock] counts ticks of an implementation-defined
      period; [ticks_per_second] is the number of ticks in one second
      (10^9 with libstdc++ and libc++).
    - [std::unordered_map] is traversed in an unspecified order;
      [iteration m] is the sequence a range-for over [m] visits: some
      arrangement of the entries of [m]. *)
Class StdImpl := {
  ticks_per_second : Z;
  ticks_per_second_pos : 0 < ticks_per_second;
  iteration : ∀ {A : Type}, gmap string A → list (string * A);
  iteration_perm : ∀ (A : Type) (m : gmap string A),
    iteration m ≡ₚ map_to_list m
}.

(** A concrete implementation: nanosecond ticks, entries visited in the
    order of the map's list view. *)
#[export] Instance reference_impl : StdImpl := {|
  ticks_per_second := 1000000000;
  ticks_per_second_pos := eq_refl;
  iteration := λ A m, map_to_list m;
  iteration_perm := λ A m, reflexivity (map_to_list m)
|}.

(** Another implementation: the same period, entries visited in the
    opposite order. *)
Definition reversed_impl : StdImpl := {|
  ticks_per_second := 1000000000;
  ticks_per_second_pos := eq_refl;
  iteration := λ A m, reverse (map_to_list m);
  iteration_perm := λ A m, reverse_Permutation (map_to_list m)
|}.

(** ** Data model *)

(** A reading of the steady clock ([time_point]), in ticks. *)
Abbreviation time := Z (only parsing).

Record DB := mkDB {
  records_ : gmap string (gmap string string);
  ttlMap_ : gmap string time
}.

(** The freshly constructed store, and the state after
    [records_.clear(); ttlMap_.clear()]. *)
Definition emptyDB : DB := mkDB ∅ ∅.

(** [int] is 32 bits wide. *)
Definition INT_MIN : Z := -2147483648.
Definition INT_MAX : Z := 2147483647.
Definition in_int (z : Z) : Prop := INT_MIN ≤ z ≤ INT_MAX.

(** [static_cast<int>] of a 64-bit count keeps the low 32 bits. *)
Definition to_int32 (z : Z) : Z :=
  (z + 2147483648) `mod` 4294967296 - 2147483648.

(** ** [std::sort] on a [std::vector<std::string>]

    [operator<] on [std::string] compares byte by byte (as unsigned
    values), a shorter string before its extensions. *)
Definition string_le (s1 s2 : string) : Prop := String.leb s1 s2 = true.

#[export] Instance string_le_dec : RelDecision string_le.
Proof. intros s1 s2. unfold string_le. apply _. Defined.

Definition sort_strings (l : list string) : list string :=
  merge_sort string_le l.

(** ** Text input and output used by the snapshot code *)

Definition newline : ascii := "010"%char.
Definition nl : string := String newline EmptyString.

(** [std::getline(stream, line)] on the unread text [s]: fails when nothing
    is left; otherwise takes the characters up to the first newline (which
    is consumed and dropped) or up to the end of the text. *)
Fixpoint read_until_newline (s : string) : string * string :=
  match s with
  | EmptyString => (EmptyString, EmptyString)
  | String c rest =>
      if Ascii.eqb c newline then (EmptyString, rest)
      else let '(line, rest') := read_until_newline rest in
           (String c line, rest')
  end.

Definition getline (s : string) : option (string * string) :=
  match s with
  | EmptyString => None
  | _ => Some (read_until_newline s)
  end.

(** [std::stoi(line)]: skip leading white space, take an optional sign,
    then the longest run of decimal digits; whatever follows is ignored.
    No digit at all raises [std::invalid_argument], a value outside [int]
    raises [std::out_of_range]; both are [None] here. *)
Definition is_space (c : ascii) : bool :=
  let n := N_of_ascii c in
  ((n =? 32) || ((9 <=? n) && (n <=? 13)))%N.

Fixpoint skip_spaces (s : string) : string :=
  match s with
  | String c rest => if is_space c then skip_spaces rest else s
  | EmptyString => EmptyString
  end.

Definition digit_value (c : ascii) : option Z :=
  let n := Z.of_N (N_of_ascii c) in
  if (48 <=? n) && (n <=? 57) then Some (n - 48) else None.

Fixpoint read_digits (acc : Z) (s : string) : Z :=
  match s with
  | String c rest =>
      match digit_value c with
      | Some d => read_digits (10 * acc + d) rest
      | None => acc
      end
  | EmptyString => acc
  end.

Definition starts_with_digit (s : string) : bool :=
  match s with
  | String c _ => bool_decide (is_Some (digit_value c))
  | EmptyString => false
  end.

Definition stoi (str : string) : option Z :=
  let s := skip_spaces str in
  let '(negative, digits) :=
    match s with
    | String c rest =>
        if Ascii.eqb c "-" then (true, rest)
        else if Ascii.eqb c "+" then (false, rest)
        else (false, s)
    | EmptyString => (false, s)
    end in
  if starts_with_digit digits then
    let magnitude := read_digits 0 digits in
    let v := if negative then - magnitude else magnitude in
    if bool_decide (INT_MIN ≤ v ≤ INT_MAX) then Some v else None
  else None.

(** [stream << n] for a [size_t] and for an [int]. *)
Definition show_size (n : nat) : string :=
  NilZero.string_of_uint (N.to_uint (N.of_nat n)).

Definition show_int (z : Z) : string :=
  NilZero.string_of_int (Z.to_int z).

(** How a statement of the body of [restore] ends. *)
Inductive outcome (A : Type) : Type :=
  | Normal (a : A)     (* control reaches the next statement *)
  | ReturnFalse        (* [return false;] inside the [try] block *)
  | Thrown.            (* an exception leaves the [try] block *)
Arguments Normal {A} a.
Arguments ReturnFalse {A}.
Arguments Thrown {A}.

(** The state the body of [restore] works on: the unread part of the
    [istringstream] and the two tables. *)
Record pstate := mkP { unread : string; pdb : DB }.

Definition parser (A : Type) : Type := pstate → outcome A * pstate.

Definition pret {A} (a : A) : parser A := λ st, (Normal a, st).

Definition pbind {A B} (m : parser A) (k : A → parser B) : parser B :=
  λ st, match m st with
        | (Normal a, st') => k a st'
        | (ReturnFalse, st') => (ReturnFalse, st')
        | (Thrown, st') => (Thrown, st')
        end.

#[export] Instance parser_ret : MRet parser := @pret.
#[export] Instance parser_bind : MBind parser := λ A B k m, pbind m k.

(** [if (!std::getline(stream, line)) return false;] *)
Definition next_line : parser string :=
  λ st, match getline (unread st) with
        | None => (ReturnFalse, st)
        | Some (line, rest) => (Normal line, mkP rest (pdb st))
        end.

(** [std::stoi(line)] as a statement. *)
Definition to_int (line : string) : parser Z :=
  λ st, match stoi line with
        | Some n => (Normal n, st)
        | None => (Thrown, st)
        end.

Definition update_db (f : DB → DB) : parser unit :=
  λ st, (Normal tt, mkP (unread st) (f (pdb st))).

(** [for (int i = 0; i < count; i++) body] where [body] does not read [i];
    [n] is the number of rounds. *)
Fixpoint repeat_loop (n : nat) (body : parser unit) : parser unit :=
  match n with
  | O => pret tt
  | S n' => body ;; repeat_loop n' body
  end.

Definition for_count (count : Z) (body : parser unit) : parser unit :=
  repeat_loop (Z.to_nat count) body.

Section store.
Context `{!StdImpl}.

(** ** Helper functions *)

Definition isRecordExpired (now : time) (db : DB) (recordId : string) : bool :=
  match ttlMap_ db !! recordId with
  | None => false                      (* no TTL set: never expires *)
  | Some expiry => bool_decide (expiry ≤ now)   (* now >= it->second *)
  end.

Definition cleanupExpiredRecord (db : DB) (recordId : string) : DB :=
  mkDB (delete recordId (records_ db)) (delete recordId (ttlMap_ db)).

(** ** Level 1: basic operations *)

(** [records_[recordId][field] = value]: both [operator[]] calls create a
    missing entry. *)
Definition assign_field (recs : gmap string (gmap string string))
    (recordId field value : string) : gmap string (gmap string string) :=
  <[recordId := <[field := value]> (default ∅ (recs !! recordId))]> recs.

Definition set (now : time) (db : DB) (recordId field value : string) : DB :=
  let db1 := if isRecordExpired now db recordId
             then cleanupExpiredRecord db recordId else db in
  mkDB (assign_field (records_ db1) recordId field value) (ttlMap_ db1).

Definition get (now : time) (db : DB) (recordId field : string)
    : option string :=
  if isRecordExpired now db recordId then None
  else match records_ db !! recordId with
       | None => None
       | Some fields => fields !! field
       end.

Definition deleteField (now : time) (db : DB) (recordId field : string)
    : bool * DB :=
  if isRecordExpired now db recordId
  then (false, cleanupExpiredRecord db recordId)
  else match records_ db !! recordId with
       | None => (false, db)
       | Some fields =>
           match fields !! field with
           | None => (false, db)
           | Some _ =>
               let fields' := delete field fields in
               if decide (fields' = ∅)
               then (true, mkDB (delete recordId (records_ db))
                                (delete recordId (ttlMap_ db)))
               else (true, mkDB (<[recordId := fields']> (records_ db))
                                (ttlMap_ db))
           end
       end.

Definition deleteRecord (db : DB) (recordId : string) : bool * DB :=
  match records_ db !! recordId with
  | None => (false, db)
  | Some _ => (true, mkDB (delete recordId (records_ db))
                          (delete recordId (ttlMap_ db)))
  end.

Definition getFields (now : time) (db : DB) (recordId : string)
    : list string :=
  if isRecordExpired now db recordId then []
  else match records_ db !! recordId with
       | None => []
       | Some fields => sort_strings (iteration fields).*1
       end.

Definition hasRecord (now : time) (db : DB) (recordId : string) : bool :=
  if isRecordExpired now db recordId then false
  else bool_decide (is_Some (records_ db !! recordId)).

Definition getAllRecordIds (now : time) (db : DB) : list string :=
  sort_strings
    (filter (λ recordId, isRecordExpired now db recordId = false)
            (iteration (records_ db)).*1).

(** ** Level 2: filtering *)

Definition getRecordsByFieldValue (now : time) (db : DB)
    (field value : string) : list string :=
  sort_strings
    (filter (λ pair : string * gmap string string,
               isRecordExpired now db pair.1 = false ∧
               pair.2 !! field = Some value)
            (iteration (records_ db))).*1.

(** ** Level 3: TTL *)

Definition setTTL (now : time) (db : DB) (recordId : string)
    (ttlSeconds : Z) : DB :=
  match records_ db !! recordId with
  | None => db
  | Some _ =>
      mkDB (records_ db)
           (<[recordId := now + ttlSeconds * ticks_per_second]> (ttlMap_ db))
  end.

(** The first loop collects the expired ids, the second purges them one by
    one and counts. *)
Definition expireRecords (now : time) (db : DB) : Z * DB :=
  let expiredRecords :=
    (filter (λ ttlPair : string * time, ttlPair.2 ≤ now)
            (iteration (ttlMap_ db))).*1 in
  foldl (λ (acc : Z * DB) recordId,
           (acc.1 + 1, cleanupExpiredRecord acc.2 recordId))
        (0, db) expiredRecords.

(** ** Level 4: backup and restore *)

Fixpoint write_fields (fields : list (string * string)) : string :=
  match fields with
  | [] => EmptyString
  | (field, value) :: rest =>
      field +:+ nl +:+ value +:+ nl +:+ write_fields rest
  end.

(** [records_.at(recordId)] cannot throw in [backup]: the id was just read
    from [records_]. *)
Definition write_record (db : DB) (recordId : string) : string :=
  let fields := default ∅ (records_ db !! recordId) in
  recordId +:+ nl +:+ show_size (size fields) +:+ nl +:+
  write_fields (iteration fields).

Fixpoint write_records (db : DB) (recordIds : list string) : string :=
  match recordIds with
  | [] => EmptyString
  | recordId :: rest => write_record db recordId +:+ write_records db rest
  end.

(** [duration_cast<seconds>(expiry - now).count()]: truncation toward
    zero. *)
Definition remaining_seconds (now expiry : time) : Z :=
  (expiry - now) `quot` ticks_per_second.

Definition collect_ttls (now : time) (db : DB) (recordIds : list string)
    : list (string * Z) :=
  omap (λ recordId,
          match ttlMap_ db !! recordId with
          | None => None
          | Some expiry =>
              let remaining := remaining_seconds now expiry in
              if bool_decide (0 < remaining)
              then Some (recordId, to_int32 remaining)
              else None
          end) recordIds.

Fixpoint write_ttls (ttls : list (string * Z)) : string :=
  match ttls with
  | [] => EmptyString
  | (recordId, seconds) :: rest =>
      recordId +:+ nl +:+ show_int seconds +:+ nl +:+ write_ttls rest
  end.

Definition valid_record_ids (now : time) (db : DB) : list string :=
  filter (λ recordId, isRecordExpired now db recordId = false)
         (iteration (records_ db)).*1.

Definition backup (now : time) (db : DB) : string :=
  let validRecordIds := valid_record_ids now db in
  let validTTLs := collect_ttls now db validRecordIds in
  show_size (length validRecordIds) +:+ nl +:+
  write_records db validRecordIds +:+
  show_size (length validTTLs) +:+ nl +:+
  write_ttls validTTLs.

Definition read_field (recordId : string) : parser unit :=
  field ← next_line;
  value ← next_line;
  update_db (λ db, mkDB (assign_field (records_ db) recordId field value)
                        (ttlMap_ db)).

Definition read_record : parser unit :=
  recordId ← next_line;
  line ← next_line;
  fieldCount ← to_int line;
  for_count fieldCount (read_field recordId).

Definition read_ttl (now : time) : parser unit :=
  recordId ← next_line;
  line ← next_line;
  ttlSeconds ← to_int line;
  update_db (λ db, mkDB (records_ db)
      (<[recordId := now + ttlSeconds * ticks_per_second]> (ttlMap_ db))).

(** The statements of the [try] block after the two [clear()] calls. *)
Definition restore_body (now : time) : parser unit :=
  line ← next_line;
  recordCount ← to_int line;
  for_count recordCount read_record ;;
  line ← next_line;
  ttlCount ← to_int line;
  for_count ttlCount (read_ttl now).

(** [restore] clears both tables, runs the body, and clears again only in
    the [catch] handler. *)
Definition restore (now : time) (db : DB) (backupData : string)
    : bool * DB :=
  match restore_body now (mkP backupData emptyDB) with
  | (Normal _, st) => (true, pdb st)
  | (ReturnFalse, st) => (false, pdb st)
  | (Thrown, _) => (false, emptyDB)
  end.

(** ** Utility functions *)

(** [printAllRecords] writes to [std::cout]; the text it writes is the
    result here ([std::endl] is a newline). *)
Fixpoint write_all {A : Type} (f : A → string) (l : list A) : string :=
  match l with
  | [] => EmptyString
  | x :: rest => f x +:+ write_all f rest
  end.

Definition print_field (now : time) (db : DB) (recordId field : string)
    : string :=
  match get now db recordId field with
  | Some value => "  " +:+ field +:+ " = " +:+ value +:+ nl
  | None => EmptyString
  end.

Definition print_ttl (now : time) (db : DB) (recordId : string) : string :=
  match ttlMap_ db !! recordId with
  | Some expiry =>
      "  [TTL: " +:+ show_int (remaining_seconds now expiry) +:+
      " seconds remaining]" +:+ nl
  | None => EmptyString
  end.

Definition print_record (now : time) (db : DB) (recordId : string) : string :=
  "Record: " +:+ recordId +:+ nl +:+
  write_all (print_field now db recordId) (getFields now db recordId) +:+
  print_ttl now db recordId +:+
  nl.

Definition printAllRecords (now : time) (db : DB) : string :=
  "=== Database Contents ===" +:+ nl +:+
  match getAllRecordIds now db with
  | [] => "Database is empty." +:+ nl
  | recordIds => write_all (print_record now db) recordIds
  end.

Definition getRecordCount (now : time) (db : DB) : nat :=
  length (getAllRecordIds now db).

(** ** The clearing loop of the test suite and of the demo

    [for (const auto& recordId : db.getAllRecordIds())
       db.deleteRecord(recordId);] *)
Definition clear_all (now : time) (db : DB) : DB :=
  foldl (λ db recordId, (deleteRecord db recordId).2) db
        (getAllRecordIds now db).

End store.

(** * Vocabulary of the properties

    Predicates on strings and stores, the tables a run of [restore] builds,
    and sequences of operations: everything the statements below are
    written with. *)

(** ** Lines of text *)

Fixpoint has_newline (s : string) : bool :=
  match s with
  | EmptyString => false
  | String c rest => Ascii.eqb c newline || has_newline rest
  end.

Fixpoint ends_with_newline (s : string) : bool :=
  match s with
  | EmptyString => false
  | String c EmptyString => Ascii.eqb c newline
  | String _ rest => ends_with_newline rest
  end.

Definition starts_with_newline (s : string) : bool :=
  match s with
  | String c _ => Ascii.eqb c newline
  | EmptyString => false
  end.

(** [extra] is appended to [s] at a line boundary: it adds lines after
    those of [s] and does not lengthen the last line of [s]. *)
Definition on_line_boundary (s extra : string) : Prop :=
  extra = EmptyString ∨ ends_with_newline s = true ∨
  starts_with_newline extra = true.

(** The unread text [u'] of a run on the longer input, against the unread
    text [u] of the run on the shorter one. *)
Definition extends (u u' : string) : Prop :=
  u = EmptyString ∨ ∃ extra, u' = u +:+ extra ∧ on_line_boundary u extra.

(** A parser step that succeeds on the shorter input succeeds on the
    longer one with the same result and the same tables. *)
Definition stable {A} (p : parser A) : Prop :=
  ∀ st u' a st1,
    extends (unread st) u' → p st = (Normal a, st1) →
    ∃ u1', p (mkP u' (pdb st)) = (Normal a, mkP u1' (pdb st1)) ∧
           extends (unread st1) u1'.

(** ** Decimal numerals *)

(** The value [read_digits] computes, on the digit list itself. *)
Fixpoint uint_value (acc : Z) (d : uint) : Z :=
  match d with
  | Nil => acc
  | D0 d => uint_value (10 * acc + 0) d
  | D1 d => uint_value (10 * acc + 1) d
  | D2 d => uint_value (10 * acc + 2) d
  | D3 d => uint_value (10 * acc + 3) d
  | D4 d => uint_value (10 * acc + 4) d
  | D5 d => uint_value (10 * acc + 5) d
  | D6 d => uint_value (10 * acc + 6) d
  | D7 d => uint_value (10 * acc + 7) d
  | D8 d => uint_value (10 * acc + 8) d
  | D9 d => uint_value (10 * acc + 9) d
  end.

Fixpoint digits_only (s : string) : bool :=
  match s with
  | EmptyString => true
  | String c rest => bool_decide (is_Some (digit_value c)) && digits_only rest
  end.

(** ** What the snapshot format can carry *)

Definition fields_of (db : DB) (recordId : string) : gmap string string :=
  default ∅ (records_ db !! recordId).

Definition line_pair_ok (p : string * string) : Prop :=
  has_newline p.1 = false ∧ has_newline p.2 = false.

Definition ttl_pair_ok (p : string * Z) : Prop :=
  has_newline p.1 = false ∧ in_int p.2.

(** A record is written and read back intact when no newline occurs in its
    id, its field names and its values, and its field count is one that
    [std::stoi] reads back. *)
Definition record_ok (db : DB) (recordId : string) : Prop :=
  has_newline recordId = false ∧
  Z.of_nat (size (fields_of db recordId)) ≤ INT_MAX ∧
  ∀ f v, fields_of db recordId !! f = Some v →
         has_newline f = false ∧ has_newline v = false.

Definition storable (db : DB) : Prop :=
  Z.of_nat (size (records_ db)) ≤ INT_MAX ∧
  ∀ r, is_Some (records_ db !! r) → record_ok db r.

(** The same two conditions, one at a time. *)
Definition newline_free (db : DB) : Prop :=
  ∀ r fields, records_ db !! r = Some fields →
    has_newline r = false ∧
    ∀ f v, fields !! f = Some v →
           has_newline f = false ∧ has_newline v = false.

Definition counts_fit (db : DB) : Prop :=
  Z.of_nat (size (records_ db)) ≤ INT_MAX ∧
  map_Forall (λ (_ : string) (fields : gmap string string),
                Z.of_nat (size fields) ≤ INT_MAX) (records_ db).

(** ** Invariants of the store *)

Definition no_empty_record (db : DB) : Prop :=
  ∀ r, records_ db !! r ≠ Some ∅.

Definition ttl_in_records (db : DB) : Prop :=
  ∀ r, is_Some (ttlMap_ db !! r) → is_Some (records_ db !! r).

(** No expiration instant of [db] falls in the window from [t1] (excluded)
    to [t2] (included). *)
Definition none_expires_between (t1 t2 : time) (db : DB) : Prop :=
  map_Forall (λ (_ : string) (expiry : time), expiry ≤ t1 ∨ t2 < expiry)
             (ttlMap_ db).

(** ** Sequences of operations *)

(** The four mutating operations the round-trip law speaks about. *)
Inductive op : Type :=
  | OpSet (recordId field value : string)
  | OpDeleteField (recordId field : string)
  | OpDeleteRecord (recordId : string)
  | OpSetTTL (recordId : string) (ttlSeconds : Z).

(** A step that happens no later than [t1], with arguments the snapshot
    format can carry: no newline in the strings handed to [set]; the
    [ttlSeconds] argument is an [int]. *)
Definition step_ok (t1 : time) (step : time * op) : Prop :=
  step.1 ≤ t1 ∧
  match step.2 with
  | OpSet r f v =>
      has_newline r = false ∧ has_newline f = false ∧ has_newline v = false
  | OpSetTTL _ ttl => INT_MIN ≤ ttl ≤ INT_MAX
  | OpDeleteField _ _ | OpDeleteRecord _ => True
  end.

#[export] Instance step_ok_dec t1 step : Decision (step_ok t1 step).
Proof. unfold step_ok. destruct step as [t []]; cbn; apply _. Defined.

(** A sample run: two live records, one of them with a TTL, one expired
    record that is still stored, and one deleted record. *)
Definition demo_steps : list (time * op) :=
  [ (0, OpSet "u1" "name" "Alice"); (0, OpSet "u1" "age" "25");
    (1, OpSet "t" "d" "x"); (2, OpSetTTL "t" 5);
    (3, OpSet "s" "k" "v"); (3, OpSetTTL "s" 0);
    (4, OpDeleteField "u1" "age"); (5, OpSet "gone" "k" "v");
    (6, OpDeleteRecord "gone") ].

(** ** The tables [restore] builds *)

(** The inner loop of [restore], as a fold over the pairs it read. *)
Definition add_fields (recs : gmap string (gmap string string))
    (recordId : string) (fields : list (string * string))
    : gmap string (gmap string string) :=
  foldl (λ recs p, assign_field recs recordId p.1 p.2) recs fields.

(** The record [restore] rebuilds under id [r] from the snapshot taken of
    [db0] at instant [t1]. *)
Definition restored_record (t1 : time) (db0 : DB) (r : string)
    : option (gmap string string) :=
  if isRecordExpired t1 db0 r then None
  else match records_ db0 !! r with
       | Some fields => if decide (fields = ∅) then None else Some fields
       | None => None
       end.

(** ** Sequences of reads *)

(** The five [const] member functions the expiry law speaks about, and what
    they return. *)
Inductive query : Type :=
  | QGet (recordId field : string)
  | QHasRecord (recordId : string)
  | QGetFields (recordId : string)
  | QGetAllRecordIds
  | QGetRecordsByFieldValue (field value : string).

Inductive reply : Type :=
  | RValue (o : option string)
  | RBool (b : bool)
  | RList (l : list string).

(** The reply [a] to [q] treats record [r] as absent. *)
Definition absent_for (r : string) (q : query) (a : reply) : Prop :=
  match q, a with
  | QGet r' _, RValue o => r' = r → o = None
  | QHasRecord r', RBool b => r' = r → b = false
  | QGetFields r', RList l => r' = r → l = []
  | QGetAllRecordIds, RList l => r ∉ l
  | QGetRecordsByFieldValue _ _, RList l => r ∉ l
  | _, _ => False
  end.

(** ** Snapshot texts *)

(** The text of one record and of a whole snapshot, from the data they
    list: the format [restore] reads. *)
Definition render_record (rec : string * list (string * string)) : string :=
  rec.1 +:+ nl +:+ show_size (length rec.2) +:+ nl +:+ write_fields rec.2.

Definition render_snapshot (recs : list (string * list (string * string)))
    (ttls : list (string * Z)) : string :=
  show_size (length recs) +:+ nl +:+
  write_all render_record recs +:+
  show_size (length ttls) +:+ nl +:+
  write_ttls ttls.

Definition rendered_record_ok (rec : string * list (string * string))
    : Prop :=
  has_newline rec.1 = false ∧
  Z.of_nat (length rec.2) ≤ INT_MAX ∧
  Forall line_pair_ok rec.2.

(** The record table the record section of a snapshot text leads to. *)
Definition build_records (recs : list (string * list (string * string)))
    : gmap string (gmap string string) :=
  foldl (λ table rec, add_fields table rec.1 rec.2) ∅ recs.

(** ** What a read sees of a record *)

(** The field map of [r] as the reads see it: none for an expired
    record. *)
Definition live_record (now : time) (db : DB) (r : string)
    : option (gmap string string) :=
  if isRecordExpired now db r then None else records_ db !! r.

Section vocabulary.
Context `{!StdImpl}.

(** The ids the first loop of [expireRecords] collects. *)
Definition expired_ids (now : time) (db : DB) : list string :=
  (filter (λ ttlPair : string * time, ttlPair.2 ≤ now)
          (iteration (ttlMap_ db))).*1.

(** The outer loop and the TTL loop of [restore], as folds over what they
    read. *)
Definition add_records (db0 : DB) (recs : gmap string (gmap string string))
    (recordIds : list string) : gmap string (gmap string string) :=
  foldl (λ recs r, add_fields recs r (iteration (fields_of db0 r)))
        recs recordIds.

Definition add_ttls (now : time) (ttls : gmap string time)
    (pairs : list (string * Z)) : gmap string time :=
  foldl (λ ttls p, <[p.1 := now + p.2 * ticks_per_second]> ttls) ttls pairs.

(** The TTL entry [restore] at instant [t2] rebuilds under id [r] from the
    snapshot taken of [db0] at instant [t1]. *)
Definition restored_ttl (t1 t2 : time) (db0 : DB) (r : string)
    : option time :=
  if isRecordExpired t1 db0 r then None
  else match records_ db0 !! r, ttlMap_ db0 !! r with
       | Some _, Some expiry =>
           if bool_decide (0 < remaining_seconds t1 expiry)
           then Some (t2 + to_int32 (remaining_seconds t1 expiry)
                           * ticks_per_second)
           else None
       | _, _ => None
       end.

Definition apply_op (now : time) (db : DB) (o : op) : DB :=
  match o with
  | OpSet r f v => set now db r f v
  | OpDeleteField r f => (deleteField now db r f).2
  | OpDeleteRecord r => (deleteRecord db r).2
  | OpSetTTL r ttl => setTTL now db r ttl
  end.

(** Each step carries the clock reading at which the call runs. *)
Definition run (db : DB) (steps : list (time * op)) : DB :=
  foldl (λ db step, apply_op step.1 db step.2) db steps.

(** No expiration instant lies more than [INT_MAX] seconds after [t]. *)
Definition ttl_within (t : time) (db : DB) : Prop :=
  ∀ r expiry, ttlMap_ db !! r = Some expiry →
              expiry ≤ t + INT_MAX * ticks_per_second.

(** Two stores that the four reads cannot tell apart at instant [now]. *)
Definition observationally_equal (now : time) (a b : DB) : Prop :=
  (∀ r f, get now a r f = get now b r f) ∧
  (∀ r, getFields now a r = getFields now b r) ∧
  (∀ r, hasRecord now a r = hasRecord now b r) ∧
  getAllRecordIds now a = getAllRecordIds now b.

(** A read leaves the store as it is, so a sequence of reads, each at its
    own clock reading, is answered against one and the same store. *)
Definition ask (now : time) (db : DB) (q : query) : reply :=
  match q with
  | QGet r f => RValue (get now db r f)
  | QHasRecord r => RBool (hasRecord now db r)
  | QGetFields r => RList (getFields now db r)
  | QGetAllRecordIds => RList (getAllRecordIds now db)
  | QGetRecordsByFieldValue f v => RList (getRecordsByFieldValue now db f v)
  end.

Definition answers (db : DB) (reads : list (time * query)) : list reply :=
  map (λ read, ask read.1 db read.2) reads.

(** The states the mutating operations reach from the empty store, where
    [restore] is given a snapshot that [backup] returned for such a state
    (one that the snapshot format can carry). *)
Inductive reachable : DB → Prop :=
  | reach_empty : reachable emptyDB
  | reach_set now db r f v :
      reachable db → reachable (set now db r f v)
  | reach_deleteField now db r f :
      reachable db → reachable (deleteField now db r f).2
  | reach_deleteRecord db r :
      reachable db → reachable (deleteRecord db r).2
  | reach_setTTL now db r ttl :
      reachable db → reachable (setTTL now db r ttl)
  | reach_expireRecords now db :
      reachable db → reachable (expireRecords now db).2
  | reach_restore_backup now t db source :
      reachable db → reachable source → storable source →
      reachable (restore now db (backup t source)).2.

(** The states the mutating operations reach from the empty store when
    [restore] is given any text at all. *)
Inductive reachable_any : DB → Prop :=
  | any_empty : reachable_any emptyDB
  | any_set now db r f v :
      reachable_any db → reachable_any (set now db r f v)
  | any_deleteField now db r f :
      reachable_any db → reachable_any (deleteField now db r f).2
  | any_deleteRecord db r :
      reachable_any db → reachable_any (deleteRecord db r).2
  | any_setTTL now db r ttl :
      reachable_any db → reachable_any (setTTL now db r ttl)
  | any_expireRecords now db :
      reachable_any db → reachable_any (expireRecords now db).2
  | any_restore now db text :
      reachable_any db → reachable_any (restore now db text).2.

(** A parser step that keeps a property of the tables, however it ends. *)
Definition keeps (P : DB → Prop) {A} (p : parser A) : Prop :=
  ∀ st, P (pdb st) → P (pdb (p st).2).

End vocabulary.

(** * Properties *)

(** ** The order used by [std::sort] *)

Lemma ascii_compare_refl (a : ascii) : Ascii.compare a a = Eq.
Proof. unfold Ascii.compare. apply N.compare_refl. Qed.

Lemma string_compare_refl (s : string) : String.compare s s = Eq.
Proof. induction s as [|a s IH]; simpl; [done|]. by rewrite ascii_compare_refl. Qed.

Lemma string_compare_trans_le (s1 s2 s3 : string) :
  String.compare s1 s2 ≠ Gt → String.compare s2 s3 ≠ Gt →
  String.compare s1 s3 ≠ Gt.
Proof.
  revert s2 s3. induction s1 as [|a s1 IH]; intros [|b s2] [|c s3]; simpl;
    try done.
  unfold Ascii.compare.
  destruct (N.compare_spec (N_of_ascii a) (N_of_ascii b)) as [Hab|Hab|Hab];
    destruct (N.compare_spec (N_of_ascii b) (N_of_ascii c)) as [Hbc|Hbc|Hbc];
    destruct (N.compare_spec (N_of_ascii a) (N_of_ascii c)) as [Hac|Hac|Hac];
    try done; try lia; eauto.
Qed.

#[export] Instance string_le_refl : Reflexive string_le.
Proof. intros s. unfold string_le, String.leb. by rewrite string_compare_refl. Qed.

#[export] Instance string_le_trans : Transitive string_le.
Proof.
  intros s1 s2 s3. unfold string_le, String.leb. intros H12 H23.
  pose proof (string_compare_trans_le s1 s2 s3) as Ht.
  destruct (String.compare s1 s2), (String.compare s2 s3),
    (String.compare s1 s3); try done; exfalso; by apply Ht.
Qed.

#[export] Instance string_le_antisym : AntiSymm (=) string_le.
Proof. intros s1 s2. apply String.leb_antisym. Qed.

#[export] Instance string_le_total : Total string_le.
Proof. intros s1 s2. apply String.leb_total. Qed.

Lemma sort_strings_perm (l : list string) : sort_strings l ≡ₚ l.
Proof. apply merge_sort_Permutation. Qed.

Lemma sort_strings_sorted (l : list string) :
  StronglySorted string_le (sort_strings l).
Proof. apply StronglySorted_merge_sort; apply _. Qed.

Lemma elem_of_sort_strings (l : list string) (x : string) :
  x ∈ sort_strings l ↔ x ∈ l.
Proof. by rewrite sort_strings_perm. Qed.

(** The sorted vector does not depend on the order in which the hash table
    was traversed. *)
Lemma sort_strings_unique (l1 l2 : list string) :
  l1 ≡ₚ l2 → sort_strings l1 = sort_strings l2.
Proof.
  intros Hp. apply (StronglySorted_unique string_le);
    [apply sort_strings_sorted..|].
  by rewrite !sort_strings_perm.
Qed.

Section store_facts.
Context `{!StdImpl}.

Lemma iteration_elem_of {A} (m : gmap string A) (k : string) (x : A) :
  (k, x) ∈ iteration m ↔ m !! k = Some x.
Proof. by rewrite iteration_perm, elem_of_map_to_list. Qed.

Lemma iteration_NoDup_fst {A} (m : gmap string A) : NoDup (iteration m).*1.
Proof. rewrite iteration_perm. apply NoDup_fst_map_to_list. Qed.

Lemma iteration_length {A} (m : gmap string A) :
  length (iteration m) = size m.
Proof. by rewrite iteration_perm, length_map_to_list. Qed.

Lemma elem_of_iteration_keys {A} (m : gmap string A) (k : string) :
  k ∈ (iteration m).*1 ↔ is_Some (m !! k).
Proof.
  rewrite list_elem_of_fmap. split.
  - intros [[k' x] [-> Hin]]. apply iteration_elem_of in Hin. by exists x.
  - intros [x Hx]. exists (k, x). split; [done|]. by apply iteration_elem_of.
Qed.

Lemma NoDup_filter_keys {A} (P : string * A → Prop) `{!∀ x, Decision (P x)}
    (m : gmap string A) :
  NoDup (filter P (iteration m)).*1.
Proof.
  eapply sublist_NoDup; [apply (iteration_NoDup_fst m)|].
  apply fmap_sublist, sublist_filter.
Qed.

Lemma isRecordExpired_true now db r :
  isRecordExpired now db r = true ↔
  ∃ expiry, ttlMap_ db !! r = Some expiry ∧ expiry ≤ now.
Proof.
  unfold isRecordExpired. destruct (ttlMap_ db !! r) as [e|].
  - rewrite bool_decide_eq_true. split; [by eauto|].
    by intros (e' & [= <-] & ?).
  - split; [done|]. by intros (e' & ? & _).
Qed.

Lemma isRecordExpired_false now db r :
  isRecordExpired now db r = false ↔
  ∀ expiry, ttlMap_ db !! r = Some expiry → now < expiry.
Proof.
  unfold isRecordExpired. destruct (ttlMap_ db !! r) as [e|].
  - rewrite bool_decide_eq_false. split; [intros ? ? [= <-]; lia|].
    intros Hlt. specialize (Hlt e eq_refl). lia.
  - split; [|done]. by intros _ ?.
Qed.

(** Once expired, always expired: the clock never runs backwards. *)
Lemma isRecordExpired_mono now now' db r :
  now ≤ now' → isRecordExpired now db r = true →
  isRecordExpired now' db r = true.
Proof.
  rewrite !isRecordExpired_true. intros Hle (e & He & Hexp).
  exists e. split; [done|lia].
Qed.

(** ** Reads of an expired record *)

Lemma get_expired now db r f :
  isRecordExpired now db r = true → get now db r f = None.
Proof. unfold get. by intros ->. Qed.

Lemma hasRecord_expired now db r :
  isRecordExpired now db r = true → hasRecord now db r = false.
Proof. unfold hasRecord. by intros ->. Qed.

Lemma getFields_expired now db r :
  isRecordExpired now db r = true → getFields now db r = [].
Proof. unfold getFields. by intros ->. Qed.

Lemma elem_of_getAllRecordIds now db r :
  r ∈ getAllRecordIds now db ↔
  is_Some (records_ db !! r) ∧ isRecordExpired now db r = false.
Proof.
  unfold getAllRecordIds.
  rewrite elem_of_sort_strings, list_elem_of_filter, elem_of_iteration_keys.
  tauto.
Qed.

Lemma elem_of_getRecordsByFieldValue now db f v r :
  r ∈ getRecordsByFieldValue now db f v ↔
  isRecordExpired now db r = false ∧
  ∃ fields, records_ db !! r = Some fields ∧ fields !! f = Some v.
Proof.
  unfold getRecordsByFieldValue.
  rewrite elem_of_sort_strings, list_elem_of_fmap. split.
  - intros [[r' fields] [-> [[Hexp Hf] Hin]%list_elem_of_filter]].
    apply iteration_elem_of in Hin. simpl in *. eauto.
  - intros (Hexp & fields & Hr & Hf). exists (r, fields). split; [done|].
    apply list_elem_of_filter. split; [done|]. by apply iteration_elem_of.
Qed.

(** The two sorted enumerations are the same whatever the traversal order
    of the hash table. *)
Lemma getAllRecordIds_canonical now db :
  getAllRecordIds now db =
  sort_strings (filter (λ r, isRecordExpired now db r = false)
                       (map_to_list (records_ db)).*1).
Proof.
  unfold getAllRecordIds. apply sort_strings_unique.
  by rewrite iteration_perm.
Qed.

Lemma getFields_canonical now db r :
  getFields now db r =
  if isRecordExpired now db r then []
  else match records_ db !! r with
       | None => []
       | Some fields => sort_strings (map_to_list fields).*1
       end.
Proof.
  unfold getFields. destruct (isRecordExpired now db r); [done|].
  destruct (records_ db !! r) as [fields|]; [|done].
  apply sort_strings_unique. by rewrite iteration_perm.
Qed.

(** ** [setTTL] *)

Lemma setTTL_absent now db r ttl :
  records_ db !! r = None → setTTL now db r ttl = db.
Proof. unfold setTTL. by intros ->. Qed.

(** ** [cleanupExpiredRecord] run over a vector of ids *)

Lemma foldl_cleanup_records db l r :
  records_ (foldl cleanupExpiredRecord db l) !! r =
  if decide (r ∈ l) then None else records_ db !! r.
Proof.
  revert db. induction l as [|x l IH]; intros db; cbn [foldl].
  - case_decide as Hin; [by apply elem_of_nil in Hin|done].
  - rewrite IH. unfold cleanupExpiredRecord; cbn [records_].
    destruct (decide (r ∈ l)) as [Hin|Hin];
      destruct (decide (r ∈ x :: l)) as [Hin'|Hin']; try done.
    + exfalso. apply Hin'. by right.
    + apply elem_of_cons in Hin' as [->|?]; [|done]. apply lookup_delete_eq.
    + apply lookup_delete_ne. intros ->. apply Hin'. by left.
Qed.

Lemma foldl_cleanup_ttl db l r :
  ttlMap_ (foldl cleanupExpiredRecord db l) !! r =
  if decide (r ∈ l) then None else ttlMap_ db !! r.
Proof.
  revert db. induction l as [|x l IH]; intros db; cbn [foldl].
  - case_decide as Hin; [by apply elem_of_nil in Hin|done].
  - rewrite IH. unfold cleanupExpiredRecord; cbn [ttlMap_].
    destruct (decide (r ∈ l)) as [Hin|Hin];
      destruct (decide (r ∈ x :: l)) as [Hin'|Hin']; try done.
    + exfalso. apply Hin'. by right.
    + apply elem_of_cons in Hin' as [->|?]; [|done]. apply lookup_delete_eq.
    + apply lookup_delete_ne. intros ->. apply Hin'. by left.
Qed.

Lemma foldl_cleanup_count (c : Z) db l :
  foldl (λ (acc : Z * DB) recordId,
           (acc.1 + 1, cleanupExpiredRecord acc.2 recordId)) (c, db) l
  = (c + Z.of_nat (length l), foldl cleanupExpiredRecord db l).
Proof.
  revert c db. induction l as [|x l IH]; intros c db; simpl.
  - f_equal. lia.
  - rewrite IH. f_equal. lia.
Qed.

Lemma elem_of_expired_ids now db r :
  r ∈ expired_ids now db ↔ isRecordExpired now db r = true.
Proof.
  unfold expired_ids. rewrite isRecordExpired_true, list_elem_of_fmap. split.
  - intros [[r' e] [-> [Hexp Hin]%list_elem_of_filter]].
    apply iteration_elem_of in Hin. eauto.
  - intros (e & He & Hle). exists (r, e). split; [done|].
    apply list_elem_of_filter. split; [done|]. by apply iteration_elem_of.
Qed.

Lemma expired_ids_length now db :
  length (expired_ids now db) =
  size (filter (λ ttlPair : string * time, ttlPair.2 ≤ now) (ttlMap_ db)).
Proof.
  unfold expired_ids. rewrite length_fmap, iteration_perm.
  rewrite map_filter_alt, <- length_map_to_list.
  rewrite map_to_list_to_map; [done|].
  eapply sublist_NoDup; [apply (NoDup_fst_map_to_list (ttlMap_ db))|].
  apply fmap_sublist, sublist_filter.
Qed.

Lemma expireRecords_unfold now db :
  expireRecords now db =
  (Z.of_nat (length (expired_ids now db)),
   foldl cleanupExpiredRecord db (expired_ids now db)).
Proof.
  unfold expireRecords. fold (expired_ids now db).
  by rewrite foldl_cleanup_count.
Qed.

End store_facts.

Section basic_claims.
Context `{!StdImpl}.

(** C4: when a live record holds the single field [f], [deleteField] on
    that field reports success and drops the record together with its TTL
    entry: the record table and the TTL table have no entry for the id any
    more, and [hasRecord] is false from then on. *)
Theorem deleteField_last_field_collapses now db r f v :
  isRecordExpired now db r = false →
  records_ db !! r = Some {[ f := v ]} →
  (deleteField now db r f).1 = true ∧
  records_ (deleteField now db r f).2 !! r = None ∧
  (∀ now', hasRecord now' (deleteField now db r f).2 r = false) ∧
  ttlMap_ (deleteField now db r f).2 !! r = None.
Proof.
  intros Hlive Hrec. unfold deleteField. rewrite Hlive, Hrec.
  rewrite lookup_singleton_eq, delete_singleton_eq.
  rewrite decide_True by done. cbn.
  rewrite !lookup_delete_eq. repeat split.
  intros now'. unfold hasRecord, isRecordExpired. cbn.
  rewrite !lookup_delete_eq. apply bool_decide_eq_false. by intros [? ?].
Qed.

(** C5: [deleteRecord] reports failure exactly when the record table has
    no entry for the id, and then changes nothing; an entry that is present,
    even one whose expiration instant has passed, is removed together with
    its TTL entry and the call reports success. *)
Theorem deleteRecord_fails_iff_no_entry db r :
  ((deleteRecord db r).1 = false ↔ records_ db !! r = None) ∧
  (records_ db !! r = None → (deleteRecord db r).2 = db) ∧
  (∀ now, isRecordExpired now db r = true → is_Some (records_ db !! r) →
     (deleteRecord db r).1 = true ∧
     records_ (deleteRecord db r).2 = delete r (records_ db) ∧
     ttlMap_ (deleteRecord db r).2 = delete r (ttlMap_ db) ∧
     records_ (deleteRecord db r).2 !! r = None ∧
     ttlMap_ (deleteRecord db r).2 !! r = None).
Proof.
  unfold deleteRecord. destruct (records_ db !! r) as [fields|] eqn:Hr; cbn.
  - split_and!; [split; done|done|].
    intros now _ _. by rewrite !lookup_delete_eq.
  - split_and!; [done|done|]. by intros now _ [? ?].
Qed.

(** C6: [getRecordsByFieldValue(f, v)] is the sorted, duplicate-free list of
    exactly the ids of the records that are not expired and whose field [f]
    is present with value [v]; a record without field [f] is never listed. *)
Theorem getRecordsByFieldValue_exact now db f v :
  StronglySorted string_le (getRecordsByFieldValue now db f v) ∧
  NoDup (getRecordsByFieldValue now db f v) ∧
  (∀ r, r ∈ getRecordsByFieldValue now db f v ↔
        isRecordExpired now db r = false ∧
        ∃ fields, records_ db !! r = Some fields ∧ fields !! f = Some v) ∧
  (∀ r fields, records_ db !! r = Some fields → fields !! f = None →
        r ∉ getRecordsByFieldValue now db f v).
Proof.
  split_and!.
  - apply sort_strings_sorted.
  - unfold getRecordsByFieldValue. rewrite sort_strings_perm.
    apply NoDup_filter_keys.
  - intros r. apply elem_of_getRecordsByFieldValue.
  - intros r fields Hr Hf [_ (fields' & Hr' & Hf')]%elem_of_getRecordsByFieldValue.
    congruence.
Qed.

(** C7: once the expiration instant of a record's TTL entry is at or before
    the clock reading, every read treats the record as absent: [get] finds
    no value for any field, [hasRecord] is false, [getFields] is empty, and
    neither enumeration lists the id.  The reads leave the store as it is,
    so the same holds for every sequence of such reads issued from that
    instant on, in whatever order. *)
Theorem expired_record_is_absent db r expiry now :
  ttlMap_ db !! r = Some expiry → expiry ≤ now →
  ((∀ f, get now db r f = None) ∧
   hasRecord now db r = false ∧
   getFields now db r = [] ∧
   (r ∉ getAllRecordIds now db) ∧
   (∀ f v, r ∉ getRecordsByFieldValue now db f v)) ∧
  (∀ reads : list (time * query),
     Forall (λ read, now ≤ read.1) reads →
     Forall2 (λ read a, absent_for r read.2 a) reads (answers db reads)).
Proof.
  intros Httl Hle.
  assert (∀ now', now ≤ now' → isRecordExpired now' db r = true) as Hexp.
  { intros now' Hle'. apply isRecordExpired_true. exists expiry.
    split; [done|lia]. }
  split.
  - specialize (Hexp now (Z.le_refl now)). split_and!.
    + intros f. by apply get_expired.
    + by apply hasRecord_expired.
    + by apply getFields_expired.
    + intros [_ Hlive]%elem_of_getAllRecordIds. congruence.
    + intros f v [Hlive _]%elem_of_getRecordsByFieldValue. congruence.
  - intros reads Hreads. unfold answers.
    induction Hreads as [|[now' q] reads Hnow _ IH]; [constructor|].
    cbn [map]. constructor; [|exact IH].
    specialize (Hexp now' Hnow). destruct q as [r' f|r'|r'| |f v]; cbn.
    + intros ->. by apply get_expired.
    + intros ->. by apply hasRecord_expired.
    + intros ->. by apply getFields_expired.
    + intros [_ Hlive]%elem_of_getAllRecordIds. congruence.
    + intros [Hlive _]%elem_of_getRecordsByFieldValue. congruence.
Qed.

End basic_claims.

Lemma deleteField_last_field_collapses_witness :
  (deleteField 0 (setTTL 0 (set 0 emptyDB "a" "k" "v") "a" 5) "a" "k").1 = true ∧
  records_ (deleteField 0 (setTTL 0 (set 0 emptyDB "a" "k" "v") "a" 5) "a" "k").2
    !! "a" = None ∧
  (∀ now', hasRecord now'
     (deleteField 0 (setTTL 0 (set 0 emptyDB "a" "k" "v") "a" 5) "a" "k").2 "a"
     = false) ∧
  ttlMap_ (deleteField 0 (setTTL 0 (set 0 emptyDB "a" "k" "v") "a" 5) "a" "k").2
    !! "a" = None.
Proof.
  apply (deleteField_last_field_collapses 0
           (setTTL 0 (set 0 emptyDB "a" "k" "v") "a" 5) "a" "k" "v");
    reflexivity.
Defined.

Lemma expired_record_is_absent_witness :
  ((∀ f, get 7 (setTTL 0 (set 0 emptyDB "t" "d" "x") "t" 0) "t" f = None) ∧
   hasRecord 7 (setTTL 0 (set 0 emptyDB "t" "d" "x") "t" 0) "t" = false ∧
   getFields 7 (setTTL 0 (set 0 emptyDB "t" "d" "x") "t" 0) "t" = [] ∧
   ("t" ∉ getAllRecordIds 7 (setTTL 0 (set 0 emptyDB "t" "d" "x") "t" 0)) ∧
   (∀ f v,
      "t" ∉ getRecordsByFieldValue 7
              (setTTL 0 (set 0 emptyDB "t" "d" "x") "t" 0) f v)) ∧
  (∀ reads : list (time * query),
     Forall (λ read, 7 ≤ read.1) reads →
     Forall2 (λ read a, absent_for "t" read.2 a) reads
       (answers (setTTL 0 (set 0 emptyDB "t" "d" "x") "t" 0) reads)).
Proof.
  apply (expired_record_is_absent
           (setTTL 0 (set 0 emptyDB "t" "d" "x") "t" 0) "t"
           (0 + 0 * ticks_per_second) 7).
  - reflexivity.
  - vm_compute. discriminate.
Defined.

(** ** Scenarios of the specification and of the test suite, evaluated *)

Example sort_strings_bytewise :
  sort_strings ["b"; "a"; "B"; ""; "ab"] = [""; "B"; "a"; "ab"; "b"].
Proof. vm_compute. reflexivity. Qed.

Example scenario_set_get :
  get 0 (set 0 (set 0 emptyDB "u1" "name" "Alice") "u1" "age" "25")
    "u1" "name" = Some "Alice" ∧
  getFields 0 (set 0 (set 0 emptyDB "u1" "name" "Alice") "u1" "age" "25")
    "u1" = ["age"; "name"].
Proof. split; vm_compute; reflexivity. Qed.

Example scenario_ttl_zero :
  hasRecord 0 (setTTL 0 (set 0 emptyDB "t" "d" "x") "t" 0) "t" = false.
Proof. vm_compute. reflexivity. Qed.

Example scenario_filter :
  getRecordsByFieldValue 0
    (set 0 (set 0 (set 0 emptyDB "a" "k" "v") "b" "k" "v") "c" "k" "w")
    "k" "v" = ["a"; "b"].
Proof. vm_compute. reflexivity. Qed.

(** Level 3 of the test suite: two records with a TTL of one second, one
    without; the sweep runs 1.1 seconds later. *)
Example scenario_sweep :
  (expireRecords 1100000000
     (setTTL 0 (setTTL 0
        (set 0 (set 0 (set 0 emptyDB "temp1" "data" "temporary")
                  "temp2" "data" "also_temporary")
           "permanent" "data" "permanent")
        "temp1" 1) "temp2" 1)).1 = 2 ∧
  getAllRecordIds 1100000000
    (expireRecords 1100000000
       (setTTL 0 (setTTL 0
          (set 0 (set 0 (set 0 emptyDB "temp1" "data" "temporary")
                    "temp2" "data" "also_temporary")
             "permanent" "data" "permanent")
          "temp1" 1) "temp2" 1)).2 = ["permanent"].
Proof. split; vm_compute; reflexivity. Qed.

Section sweep_claim.
Context `{!StdImpl}.

Lemma expireRecords_records now db :
  records_ (expireRecords now db).2 =
  filter (λ p : string * gmap string string,
            isRecordExpired now db p.1 = false) (records_ db).
Proof.
  rewrite expireRecords_unfold. cbn [snd]. apply map_eq. intros r.
  rewrite foldl_cleanup_records. apply option_eq. intros fields.
  rewrite map_lookup_filter_Some. cbn [fst].
  case_decide as Hin; rewrite elem_of_expired_ids in Hin.
  - split; [done|]. intros [_ Hlive]. by rewrite Hin in Hlive.
  - split; [|tauto]. intros Hr. split; [done|].
    by destruct (isRecordExpired now db r).
Qed.

Lemma expireRecords_ttl now db :
  ttlMap_ (expireRecords now db).2 =
  filter (λ p : string * time, now < p.2) (ttlMap_ db).
Proof.
  rewrite expireRecords_unfold. cbn [snd]. apply map_eq. intros r.
  rewrite foldl_cleanup_ttl. apply option_eq. intros e.
  rewrite map_lookup_filter_Some. cbn [snd].
  case_decide as Hin; rewrite elem_of_expired_ids in Hin.
  - split; [done|]. intros [He Hlt].
    apply isRecordExpired_true in Hin as (e' & He' & Hle).
    assert (e' = e) by congruence. lia.
  - split; [|tauto]. intros He. split; [done|].
    destruct (decide (now < e)) as [|Hge]; [done|]. exfalso. apply Hin.
    apply isRecordExpired_true. exists e. split; [done|lia].
Qed.

Lemma expireRecords_count now db :
  (expireRecords now db).1 =
  Z.of_nat (size (filter (λ p : string * time, p.2 ≤ now) (ttlMap_ db))).
Proof.
  rewrite expireRecords_unfold. cbn [fst]. by rewrite expired_ids_length.
Qed.

(** When every TTL entry belongs to a stored record, the expired TTL
    entries and the expired records are the same ids. *)
Lemma expired_records_size now db :
  dom (ttlMap_ db) ⊆ dom (records_ db) →
  size (filter (λ p : string * gmap string string,
                  ¬ isRecordExpired now db p.1 = false) (records_ db)) =
  size (filter (λ p : string * time, p.2 ≤ now) (ttlMap_ db)).
Proof.
  intros Hsub.
  rewrite <- (size_dom (D := gset string) (filter _ (records_ db))).
  rewrite <- (size_dom (D := gset string) (filter _ (ttlMap_ db))).
  f_equal. apply set_eq. intros r. rewrite !elem_of_dom. split.
  - intros [fields [Hr Hexp]%map_lookup_filter_Some]. cbn [fst] in Hexp.
    destruct (isRecordExpired now db r) eqn:He; [|done].
    apply isRecordExpired_true in He as (e & He & Hle).
    exists e. by apply map_lookup_filter_Some.
  - intros [e [He Hle]%map_lookup_filter_Some]. cbn [snd] in Hle.
    assert (r ∈ dom (records_ db)) as [fields Hr]%elem_of_dom
      by (apply Hsub, elem_of_dom; eauto).
    exists fields. apply map_lookup_filter_Some. split; [done|]. cbn [fst].
    assert (isRecordExpired now db r = true) as ->; [|done].
    apply isRecordExpired_true. eauto.
Qed.

(** C9 (amended): [expireRecords] keeps exactly the records that are not
    expired at the clock reading and exactly the TTL entries whose instant
    lies strictly in the future; the entries whose instant is at or before
    the reading are gone from both tables.  The returned count is the number
    of TTL entries so removed.  It is the number of records removed when
    every id of the TTL table is an id of the record table; without that
    condition it is not, since an expired TTL entry with no record is
    counted all the same. *)
Theorem expireRecords_purges_exactly_expired now db :
  records_ (expireRecords now db).2 =
    filter (λ p : string * gmap string string,
              isRecordExpired now db p.1 = false) (records_ db) ∧
  ttlMap_ (expireRecords now db).2 =
    filter (λ p : string * time, now < p.2) (ttlMap_ db) ∧
  (∀ r, isRecordExpired now db r = true →
        records_ (expireRecords now db).2 !! r = None ∧
        ttlMap_ (expireRecords now db).2 !! r = None) ∧
  (∀ r, isRecordExpired now db r = false →
        records_ (expireRecords now db).2 !! r = records_ db !! r ∧
        ttlMap_ (expireRecords now db).2 !! r = ttlMap_ db !! r) ∧
  (expireRecords now db).1 =
    Z.of_nat (size (filter (λ p : string * time, p.2 ≤ now) (ttlMap_ db))) ∧
  (ttl_in_records db →
   (expireRecords now db).1 =
     Z.of_nat (size (records_ db)) -
     Z.of_nat (size (records_ (expireRecords now db).2))).
Proof.
  split_and!.
  - apply expireRecords_records.
  - apply expireRecords_ttl.
  - intros r Hexp. rewrite expireRecords_unfold. cbn [snd].
    rewrite foldl_cleanup_records, foldl_cleanup_ttl.
    by rewrite !decide_True by by apply elem_of_expired_ids.
  - intros r Hlive. rewrite expireRecords_unfold. cbn [snd].
    rewrite foldl_cleanup_records, foldl_cleanup_ttl.
    rewrite !decide_False; [done|..];
      rewrite elem_of_expired_ids; congruence.
  - apply expireRecords_count.
  - intros Hin. rewrite expireRecords_count, expireRecords_records.
    assert (dom (ttlMap_ db) ⊆ dom (records_ db)) as Hsub.
    { intros r Hr%elem_of_dom. by apply elem_of_dom, Hin. }
    rewrite <- (expired_records_size now db Hsub).
    rewrite <- (map_filter_union_complement
      (λ p : string * gmap string string, isRecordExpired now db p.1 = false)
      (records_ db)) at 2.
    rewrite map_size_disj_union by apply map_disjoint_filter_complement.
    lia.
Qed.

End sweep_claim.

(** ** Text after the end of a snapshot *)

Lemma string_app_nil (x : string) : EmptyString +:+ x = x.
Proof. reflexivity. Qed.

Lemma string_app_cons (c : ascii) (s x : string) :
  String c s +:+ x = String c (s +:+ x).
Proof. reflexivity. Qed.

Lemma string_app_empty_r (s : string) : s +:+ EmptyString = s.
Proof.
  induction s as [|c s IH]; [done|]. by rewrite string_app_cons, IH.
Qed.

Lemma string_app_assoc (s1 s2 s3 : string) :
  (s1 +:+ s2) +:+ s3 = s1 +:+ s2 +:+ s3.
Proof.
  induction s1 as [|c s1 IH]; [done|]. by rewrite !string_app_cons, IH.
Qed.

Lemma ends_with_newline_has_newline s :
  ends_with_newline s = true → has_newline s = true.
Proof.
  induction s as [|c s IH]; simpl; [done|].
  destruct s as [|c' s'].
  - intros ->. done.
  - intros Hend. rewrite (IH Hend). apply orb_true_r.
Qed.

Lemma read_until_newline_app_found s x :
  has_newline s = true →
  read_until_newline (s +:+ x) =
  ((read_until_newline s).1, (read_until_newline s).2 +:+ x).
Proof.
  induction s as [|c s IH]; [done|].
  rewrite string_app_cons. cbn [has_newline read_until_newline].
  destruct (Ascii.eqb c newline); [done|]. cbn [orb].
  intros Hs. rewrite (IH Hs).
  by destruct (read_until_newline s).
Qed.

Lemma read_until_newline_none s :
  has_newline s = false → read_until_newline s = (s, EmptyString).
Proof.
  induction s as [|c s IH]; simpl; [done|].
  destruct (Ascii.eqb c newline); simpl; [done|].
  intros Hs. by rewrite (IH Hs).
Qed.

Lemma read_until_newline_app_none s x :
  has_newline s = false →
  read_until_newline (s +:+ String newline x) = (s, x).
Proof.
  induction s as [|c s IH]; [done|].
  rewrite string_app_cons. cbn [has_newline read_until_newline].
  destruct (Ascii.eqb c newline); [done|]. cbn [orb].
  intros Hs. by rewrite (IH Hs).
Qed.

Lemma ends_with_newline_rest s :
  ends_with_newline s = true →
  (read_until_newline s).2 ≠ EmptyString →
  ends_with_newline (read_until_newline s).2 = true.
Proof.
  induction s as [|c s IH]; [done|].
  cbn [read_until_newline].
  destruct (Ascii.eqb c newline) eqn:Hc; cbn [snd].
  - destruct s as [|c' s']; [done|]. by simpl.
  - destruct s as [|c' s']; [simpl; congruence|].
    intros Hend. change (ends_with_newline (String c (String c' s')))
      with (ends_with_newline (String c' s')) in Hend.
    specialize (IH Hend).
    by destruct (read_until_newline (String c' s')).
Qed.

Lemma getline_unfold u :
  u ≠ EmptyString → getline u = Some (read_until_newline u).
Proof. by destruct u. Qed.

Lemma getline_extends u u' line rest :
  extends u u' → getline u = Some (line, rest) →
  ∃ rest', getline u' = Some (line, rest') ∧ extends rest rest'.
Proof.
  intros [->|(x & -> & Hx)]; [done|]. intros Hget.
  assert (u ≠ EmptyString) as Hne by (by intros ->).
  rewrite getline_unfold in Hget by done. injection Hget as Hread.
  rewrite getline_unfold by (by destruct u).
  destruct (has_newline u) eqn:Hnl.
  - rewrite read_until_newline_app_found, Hread by done. cbn [fst snd].
    eexists; split; [done|].
    destruct rest as [|c' rest']; [by left|]. right. exists x. split; [done|].
    destruct Hx as [->|[Hend|Hst]]; [by left| |by right; right].
    right; left. apply ends_with_newline_rest in Hend;
      rewrite Hread in *; done.
  - rewrite read_until_newline_none in Hread by done.
    injection Hread as <- <-.
    destruct Hx as [->|[Hend|Hst]].
    + rewrite string_app_empty_r, read_until_newline_none by done.
      eexists; split; [done|]. by left.
    + apply ends_with_newline_has_newline in Hend. congruence.
    + destruct x as [|cx x]; [done|]. cbn in Hst.
      apply Ascii.eqb_eq in Hst as ->.
      rewrite read_until_newline_app_none by done.
      eexists; split; [done|]. by left.
Qed.

Lemma stable_next_line : stable next_line.
Proof.
  intros [u db] u' line st1 Hext. unfold next_line. cbn [unread pdb].
  destruct (getline u) as [[l rest]|] eqn:Hget; [|done].
  intros [= <- <-].
  destruct (getline_extends _ _ _ _ Hext Hget) as (rest' & -> & Hext').
  by exists rest'.
Qed.

Lemma stable_to_int line : stable (to_int line).
Proof.
  intros [u db] u' n st1 Hext. unfold to_int.
  destruct (stoi line); [|done]. intros [= <- <-]. by exists u'.
Qed.

Lemma stable_update_db f : stable (update_db f).
Proof.
  intros [u db] u' n st1 Hext. unfold update_db. intros [= <- <-].
  by exists u'.
Qed.

Lemma stable_ret {A} (a : A) : stable (mret a).
Proof. intros [u db] u' n st1 Hext. intros [= <- <-]. by exists u'. Qed.

Lemma stable_bind {A B} (p : parser A) (k : A → parser B) :
  stable p → (∀ a, stable (k a)) → stable (p ≫= k).
Proof.
  intros Hp Hk st u' b st2 Hext.
  unfold mbind, parser_bind, pbind.
  destruct (p st) as [[a| |] st1] eqn:Hpst; [|done..].
  intros Hkst.
  destruct (Hp _ _ _ _ Hext Hpst) as (u1' & -> & Hext1).
  destruct (Hk a _ _ _ _ Hext1 Hkst) as (u2' & Hk' & Hext2).
  exists u2'. by rewrite <- Hk'.
Qed.

Lemma stable_repeat_loop n body : stable body → stable (repeat_loop n body).
Proof.
  intros Hbody. induction n as [|n IH]; cbn [repeat_loop].
  - apply (stable_ret tt).
  - apply stable_bind; [done|]. by intros _.
Qed.

Ltac stable_steps :=
  repeat first
    [ apply stable_bind; [|intros ?]
    | apply stable_repeat_loop
    | apply stable_next_line
    | apply stable_to_int
    | apply stable_update_db ].

Section trailing_text.
Context `{!StdImpl}.

Lemma stable_restore_body now : stable (restore_body now).
Proof.
  unfold restore_body, for_count, read_record, read_ttl, read_field.
  stable_steps.
Qed.

Lemma restore_body_extension now s extra st1 :
  on_line_boundary s extra →
  restore_body now (mkP s emptyDB) = (Normal tt, st1) →
  ∃ u', restore_body now (mkP (s +:+ extra) emptyDB)
        = (Normal tt, mkP u' (pdb st1)).
Proof.
  intros Hb Hrun.
  destruct (stable_restore_body now (mkP s emptyDB) (s +:+ extra) tt st1)
    as (u1' & Hrun' & _); [right; by exists extra|done|].
  by exists u1'.
Qed.

(** C10: when [restore] accepts [s], it accepts [s] followed by any further
    lines and builds the same store: nothing after the TTL section is
    read.  The further text must start on a line of its own ([s] ends with
    a newline, or the text begins with one). *)
Theorem restore_ignores_trailing_lines now db s extra :
  on_line_boundary s extra →
  (restore now db s).1 = true →
  restore now db (s +:+ extra) = restore now db s.
Proof.
  intros Hb. unfold restore.
  destruct (restore_body now (mkP s emptyDB)) as [[[]| |] st1] eqn:Hrun;
    [|done..].
  intros _.
  destruct (restore_body_extension now s extra st1 Hb Hrun) as [u' ->].
  done.
Qed.

(** The two ways in which [restore] reports failure: the handler ran and
    the store is empty, or a [getline] failed and the tables are left as
    the loops had filled them. *)
Lemma restore_false_cases now db s :
  (restore now db s).1 = false →
  (restore_body now (mkP s emptyDB)).1 = Thrown ∧
    (restore now db s).2 = emptyDB ∨
  (restore_body now (mkP s emptyDB)).1 = ReturnFalse ∧
    (restore now db s).2 = pdb (restore_body now (mkP s emptyDB)).2.
Proof.
  unfold restore.
  destruct (restore_body now (mkP s emptyDB)) as [[[]| |] st1]; cbn;
    [done|by right|by left].
Qed.

End trailing_text.

(** Text glued to an unfinished last line is part of that line: here it
    turns the TTL count [0] into [01]. *)
Example trailing_text_inside_last_line :
  restore 0 emptyDB ("0" +:+ nl +:+ "0") = (true, emptyDB) ∧
  ttlMap_ (restore 0 emptyDB
             (("0" +:+ nl +:+ "0") +:+ ("1" +:+ nl +:+ "x" +:+ nl +:+ "5" +:+ nl))).2
    !! "x" = Some 5000000000.
Proof. split; vm_compute; reflexivity. Qed.

Lemma restore_ignores_trailing_lines_witness :
  restore 0 emptyDB
    (("1" +:+ nl +:+ "a" +:+ nl +:+ "1" +:+ nl +:+ "k" +:+ nl +:+ "v" +:+ nl
      +:+ "1" +:+ nl +:+ "a" +:+ nl +:+ "60" +:+ nl)
     +:+ ("2" +:+ nl +:+ "trailing"))
  = restore 0 emptyDB
    ("1" +:+ nl +:+ "a" +:+ nl +:+ "1" +:+ nl +:+ "k" +:+ nl +:+ "v" +:+ nl
     +:+ "1" +:+ nl +:+ "a" +:+ nl +:+ "60" +:+ nl).
Proof.
  apply restore_ignores_trailing_lines.
  - right; left. reflexivity.
  - reflexivity.
Defined.

(** ** [setTTL] looks at the record table only *)

Section setTTL_facts.
Context `{!StdImpl}.

Lemma setTTL_present now db r fields ttl :
  records_ db !! r = Some fields →
  setTTL now db r ttl =
  mkDB (records_ db) (<[r := now + ttl * ticks_per_second]> (ttlMap_ db)).
Proof. unfold setTTL. by intros ->. Qed.

(** A positive TTL set on an expired record that was not purged yet brings
    the record back. *)
Lemma setTTL_revives_expired now db r fields ttl :
  records_ db !! r = Some fields → 0 < ttl →
  isRecordExpired now db r = true →
  hasRecord now db r = false ∧
  hasRecord now (setTTL now db r ttl) r = true.
Proof.
  intros Hr Httl Hexp. split; [by apply hasRecord_expired|].
  rewrite (setTTL_present _ _ _ _ _ Hr).
  unfold hasRecord, isRecordExpired. cbn [ttlMap_ records_].
  rewrite lookup_insert_eq, Hr.
  pose proof ticks_per_second_pos.
  rewrite bool_decide_eq_false_2 by nia.
  apply bool_decide_eq_true. by eexists.
Qed.

End setTTL_facts.

(** C3, on the input [set("t","d","x"); setTTL("t",0)] followed one tick
    later by [setTTL("t",100)]: the record is expired and still stored when
    the second [setTTL] runs, [hasRecord] is false, and yet the call writes
    a new expiration instant into the TTL table; afterwards [hasRecord] is
    true and [get] returns the old value. *)
Theorem setTTL_on_expired_record_is_not_a_noop :
  hasRecord 1 (setTTL 0 (set 0 emptyDB "t" "d" "x") "t" 0) "t" = false ∧
  setTTL 1 (setTTL 0 (set 0 emptyDB "t" "d" "x") "t" 0) "t" 100
    ≠ setTTL 0 (set 0 emptyDB "t" "d" "x") "t" 0 ∧
  ttlMap_ (setTTL 0 (set 0 emptyDB "t" "d" "x") "t" 0) !! "t" = Some 0 ∧
  ttlMap_ (setTTL 1 (setTTL 0 (set 0 emptyDB "t" "d" "x") "t" 0) "t" 100)
    !! "t" = Some 100000000001 ∧
  hasRecord 1 (setTTL 1 (setTTL 0 (set 0 emptyDB "t" "d" "x") "t" 0) "t" 100)
    "t" = true ∧
  get 1 (setTTL 1 (setTTL 0 (set 0 emptyDB "t" "d" "x") "t" 0) "t" 100)
    "t" "d" = Some "x".
Proof.
  split_and!; try (vm_compute; reflexivity).
  intros Heq. apply (f_equal (λ db, ttlMap_ db !! "t")) in Heq.
  vm_compute in Heq. discriminate.
Qed.

(** ** [restore] on malformed input *)

(** The scenario of the specification: the first line is not a number, so
    [std::stoi] throws and the handler clears the store. *)
Example restore_not_a_snapshot :
  restore 0 (set 0 emptyDB "a" "k" "v") "not a valid snapshot"
  = (false, emptyDB).
Proof. reflexivity. Qed.

(** C2, on a snapshot cut off after its TTL section announced two entries
    and listed one: [restore] returns false through the plain
    [return false] of a failed [getline], not through the handler, and the
    record and the TTL entry read so far stay in the store. *)
Theorem restore_truncated_input_leaves_partial_store :
  (restore 0 emptyDB
     ("1" +:+ nl +:+ "a" +:+ nl +:+ "1" +:+ nl +:+ "k" +:+ nl +:+ "v" +:+ nl
      +:+ "2" +:+ nl +:+ "a" +:+ nl +:+ "60" +:+ nl)).1 = false ∧
  getAllRecordIds 0 (restore 0 emptyDB
     ("1" +:+ nl +:+ "a" +:+ nl +:+ "1" +:+ nl +:+ "k" +:+ nl +:+ "v" +:+ nl
      +:+ "2" +:+ nl +:+ "a" +:+ nl +:+ "60" +:+ nl)).2 = ["a"] ∧
  hasRecord 0 (restore 0 emptyDB
     ("1" +:+ nl +:+ "a" +:+ nl +:+ "1" +:+ nl +:+ "k" +:+ nl +:+ "v" +:+ nl
      +:+ "2" +:+ nl +:+ "a" +:+ nl +:+ "60" +:+ nl)).2 "a" = true ∧
  ttlMap_ (restore 0 emptyDB
     ("1" +:+ nl +:+ "a" +:+ nl +:+ "1" +:+ nl +:+ "k" +:+ nl +:+ "v" +:+ nl
      +:+ "2" +:+ nl +:+ "a" +:+ nl +:+ "60" +:+ nl)).2 !! "a"
    = Some 60000000000.
Proof. split_and!; vm_compute; reflexivity. Qed.

(** ** Printing and reading decimal numbers *)

Lemma read_digits_string_of_uint acc d :
  read_digits acc (NilEmpty.string_of_uint d) = uint_value acc d.
Proof.
  revert acc.
  induction d; intros acc;
    cbn [NilEmpty.string_of_uint uint_value read_digits]; [done|..];
    match goal with
    | |- context [digit_value ?c] =>
        let v := eval vm_compute in (digit_value c) in
        change (digit_value c) with v
    end; cbn beta iota; apply IHd.
Qed.

Lemma uint_value_pos acc d :
  uint_value (Z.pos acc) d = Z.pos (Pos.of_uint_acc d acc).
Proof.
  revert acc. induction d; intros acc; cbn [uint_value Pos.of_uint_acc];
    [done|..].
  - replace (10 * Z.pos acc + 0) with (Z.pos (10 * acc)) by lia. apply IHd.
  - replace (10 * Z.pos acc + 1) with (Z.pos (1 + 10 * acc)) by lia. apply IHd.
  - replace (10 * Z.pos acc + 2) with (Z.pos (2 + 10 * acc)) by lia. apply IHd.
  - replace (10 * Z.pos acc + 3) with (Z.pos (3 + 10 * acc)) by lia. apply IHd.
  - replace (10 * Z.pos acc + 4) with (Z.pos (4 + 10 * acc)) by lia. apply IHd.
  - replace (10 * Z.pos acc + 5) with (Z.pos (5 + 10 * acc)) by lia. apply IHd.
  - replace (10 * Z.pos acc + 6) with (Z.pos (6 + 10 * acc)) by lia. apply IHd.
  - replace (10 * Z.pos acc + 7) with (Z.pos (7 + 10 * acc)) by lia. apply IHd.
  - replace (10 * Z.pos acc + 8) with (Z.pos (8 + 10 * acc)) by lia. apply IHd.
  - replace (10 * Z.pos acc + 9) with (Z.pos (9 + 10 * acc)) by lia. apply IHd.
Qed.

Lemma uint_value_0 d : uint_value 0 d = Z.of_N (Pos.of_uint d).
Proof.
  induction d; cbn [uint_value Pos.of_uint]; [done| |apply uint_value_pos..].
  apply IHd.
Qed.

Lemma digits_only_string_of_uint d :
  digits_only (NilEmpty.string_of_uint d) = true.
Proof.
  induction d; cbn [NilEmpty.string_of_uint digits_only]; [done|..];
    rewrite IHd; by vm_compute.
Qed.

Lemma digit_value_range c d :
  digit_value c = Some d → (48 ≤ N_of_ascii c ≤ 57)%N.
Proof.
  unfold digit_value.
  destruct (48 <=? Z.of_N (N_of_ascii c)) eqn:H1; [|done].
  destruct (Z.of_N (N_of_ascii c) <=? 57) eqn:H2; [|done].
  intros _. lia.
Qed.

Lemma digit_is_not_space c d : digit_value c = Some d → is_space c = false.
Proof.
  intros Hd%digit_value_range. unfold is_space.
  apply orb_false_intro; [apply N.eqb_neq; lia|].
  apply andb_false_intro2, N.leb_gt. lia.
Qed.

Lemma digit_is_not_newline c d :
  digit_value c = Some d → Ascii.eqb c newline = false.
Proof.
  intros Hd%digit_value_range. apply Ascii.eqb_neq. intros ->.
  vm_compute in Hd. destruct Hd as [Hd _]. by apply Hd.
Qed.

Lemma digit_is_not_sign c d :
  digit_value c = Some d →
  Ascii.eqb c "-" = false ∧ Ascii.eqb c "+" = false.
Proof.
  intros Hd%digit_value_range.
  split; apply Ascii.eqb_neq; intros ->; vm_compute in Hd;
    destruct Hd as [Hd _]; by apply Hd.
Qed.

Lemma digits_only_no_newline s : digits_only s = true → has_newline s = false.
Proof.
  induction s as [|c s IH]; [done|]. cbn [digits_only has_newline].
  intros [[d Hd]%bool_decide_eq_true Hs]%andb_true_iff.
  by rewrite (digit_is_not_newline c d), IH.
Qed.

(** [std::stoi] on a non-empty run of digits. *)
Lemma stoi_digits s :
  digits_only s = true → s ≠ EmptyString →
  stoi s = if bool_decide (INT_MIN ≤ read_digits 0 s ≤ INT_MAX)
           then Some (read_digits 0 s) else None.
Proof.
  destruct s as [|c s]; [done|]. cbn [digits_only].
  intros [[d Hd]%bool_decide_eq_true Hs]%andb_true_iff _.
  unfold stoi. cbn [skip_spaces]. rewrite (digit_is_not_space c d Hd).
  destruct (digit_is_not_sign c d Hd) as [-> ->].
  cbn [starts_with_digit]. by rewrite bool_decide_eq_true_2 by eauto.
Qed.

(** [std::stoi] on a minus sign followed by a non-empty run of digits. *)
Lemma stoi_minus_digits s :
  digits_only s = true → s ≠ EmptyString →
  stoi (String "-" s) =
  if bool_decide (INT_MIN ≤ - read_digits 0 s ≤ INT_MAX)
  then Some (- read_digits 0 s) else None.
Proof.
  destruct s as [|c s]; [done|]. cbn [digits_only].
  intros [[d Hd]%bool_decide_eq_true Hs]%andb_true_iff _.
  unfold stoi. cbn [skip_spaces]. replace (is_space "-") with false by done.
  replace (Ascii.eqb "-" "-") with true by done.
  cbn [starts_with_digit]. by rewrite bool_decide_eq_true_2 by eauto.
Qed.

Lemma pos_to_uint_nonempty p :
  NilEmpty.string_of_uint (Pos.to_uint p) ≠ EmptyString.
Proof.
  pose proof (DecimalPos.Unsigned.to_uint_nonnil p) as Hnil.
  by destruct (Pos.to_uint p).
Qed.

Lemma string_of_pos_uint p :
  NilZero.string_of_uint (Pos.to_uint p) =
  NilEmpty.string_of_uint (Pos.to_uint p).
Proof.
  pose proof (DecimalPos.Unsigned.to_uint_nonnil p) as Hnil.
  by destruct (Pos.to_uint p).
Qed.

Lemma read_digits_pos p :
  read_digits 0 (NilEmpty.string_of_uint (Pos.to_uint p)) = Z.pos p.
Proof.
  rewrite read_digits_string_of_uint, uint_value_0.
  by rewrite DecimalPos.Unsigned.of_to.
Qed.

Lemma stoi_show_int z : in_int z → stoi (show_int z) = Some z.
Proof.
  unfold in_int, show_int. intros Hz. destruct z as [|p|p]; [done|..].
  - cbn [Z.to_int NilZero.string_of_int]. rewrite string_of_pos_uint.
    rewrite stoi_digits, read_digits_pos
      by auto using digits_only_string_of_uint, pos_to_uint_nonempty.
    by rewrite bool_decide_eq_true_2.
  - cbn [Z.to_int NilZero.string_of_int]. rewrite string_of_pos_uint.
    rewrite stoi_minus_digits, read_digits_pos
      by auto using digits_only_string_of_uint, pos_to_uint_nonempty.
    by rewrite bool_decide_eq_true_2.
Qed.

Lemma show_size_show_int n : show_size n = show_int (Z.of_nat n).
Proof.
  unfold show_size, show_int. by destruct n.
Qed.

Lemma stoi_show_size n :
  Z.of_nat n ≤ INT_MAX → stoi (show_size n) = Some (Z.of_nat n).
Proof.
  intros Hn. rewrite show_size_show_int. apply stoi_show_int.
  unfold in_int, INT_MIN. lia.
Qed.

Lemma show_int_no_newline z : has_newline (show_int z) = false.
Proof.
  unfold show_int. destruct z as [|p|p]; [done|..];
    cbn [Z.to_int NilZero.string_of_int]; rewrite string_of_pos_uint.
  - apply digits_only_no_newline, digits_only_string_of_uint.
  - cbn [has_newline]. replace (Ascii.eqb "-" newline) with false by done.
    apply digits_only_no_newline, digits_only_string_of_uint.
Qed.

Lemma show_size_no_newline n : has_newline (show_size n) = false.
Proof. rewrite show_size_show_int. apply show_int_no_newline. Qed.

(** ** Reading back what [backup] wrote *)

Lemma pbind_normal {A B} (m : parser A) (k : A → parser B) st a st' :
  m st = (Normal a, st') → (m ≫= k) st = k a st'.
Proof. unfold mbind, parser_bind, pbind. by intros ->. Qed.

Lemma getline_line l rest :
  has_newline l = false → getline (l +:+ nl +:+ rest) = Some (l, rest).
Proof.
  intros Hl. unfold nl. rewrite string_app_cons, string_app_nil.
  rewrite getline_unfold by (by destruct l).
  by rewrite read_until_newline_app_none.
Qed.

Lemma next_line_line l rest db :
  has_newline l = false →
  next_line (mkP (l +:+ nl +:+ rest) db) = (Normal l, mkP rest db).
Proof. intros Hl. unfold next_line. cbn [unread pdb]. by rewrite getline_line. Qed.

Lemma to_int_show_size n st :
  Z.of_nat n ≤ INT_MAX → to_int (show_size n) st = (Normal (Z.of_nat n), st).
Proof. intros Hn. unfold to_int. by rewrite stoi_show_size. Qed.

Lemma to_int_show_int z st :
  in_int z → to_int (show_int z) st = (Normal z, st).
Proof. intros Hz. unfold to_int. by rewrite stoi_show_int. Qed.

Lemma to_int32_in_int z : in_int (to_int32 z).
Proof.
  unfold in_int, to_int32, INT_MIN, INT_MAX.
  pose proof (Z.mod_pos_bound (z + 2147483648) 4294967296). lia.
Qed.

Lemma to_int32_small z : in_int z → to_int32 z = z.
Proof.
  unfold in_int, to_int32, INT_MIN, INT_MAX. intros Hz.
  rewrite Z.mod_small by lia. lia.
Qed.

Lemma read_field_ok r f v rest db :
  has_newline f = false → has_newline v = false →
  read_field r (mkP (f +:+ nl +:+ v +:+ nl +:+ rest) db) =
  (Normal tt, mkP rest (mkDB (assign_field (records_ db) r f v) (ttlMap_ db))).
Proof.
  intros Hf Hv. unfold read_field.
  erewrite pbind_normal by by apply next_line_line.
  erewrite pbind_normal by by apply next_line_line.
  done.
Qed.

Lemma read_fields_ok r l rest db :
  Forall line_pair_ok l →
  repeat_loop (length l) (read_field r) (mkP (write_fields l +:+ rest) db) =
  (Normal tt,
   mkP rest (mkDB (add_fields (records_ db) r l) (ttlMap_ db))).
Proof.
  intros Hl. revert db. induction Hl as [|[f v] l [Hf Hv] Hl IH]; intros db.
  - cbn. by destruct db.
  - cbn [length repeat_loop write_fields].
    rewrite !string_app_assoc.
    erewrite pbind_normal by by apply read_field_ok.
    rewrite IH. done.
Qed.

Section roundtrip.
Context `{!StdImpl}.

Lemma read_record_ok db0 r rest db :
  record_ok db0 r →
  read_record (mkP (write_record db0 r +:+ rest) db) =
  (Normal tt,
   mkP rest (mkDB (add_fields (records_ db) r (iteration (fields_of db0 r)))
                  (ttlMap_ db))).
Proof.
  intros (Hr & Hsize & Hfields). unfold read_record, write_record.
  fold (fields_of db0 r). rewrite !string_app_assoc.
  erewrite pbind_normal by by apply next_line_line.
  erewrite pbind_normal by apply next_line_line, show_size_no_newline.
  erewrite pbind_normal by by apply to_int_show_size.
  unfold for_count. rewrite Nat2Z.id, <- iteration_length.
  apply read_fields_ok.
  apply Forall_forall. intros [f v] Hin%iteration_elem_of.
  by apply Hfields.
Qed.

Lemma read_records_ok db0 ids rest db :
  Forall (record_ok db0) ids →
  repeat_loop (length ids) read_record
    (mkP (write_records db0 ids +:+ rest) db) =
  (Normal tt,
   mkP rest (mkDB (add_records db0 (records_ db) ids) (ttlMap_ db))).
Proof.
  intros Hids. revert db. induction Hids as [|r ids Hr Hids IH]; intros db.
  - cbn. by destruct db.
  - cbn [length repeat_loop write_records].
    rewrite !string_app_assoc.
    erewrite pbind_normal by by apply read_record_ok.
    rewrite IH. done.
Qed.

Lemma read_ttl_ok now r secs rest db :
  has_newline r = false → in_int secs →
  read_ttl now (mkP (r +:+ nl +:+ show_int secs +:+ nl +:+ rest) db) =
  (Normal tt,
   mkP rest (mkDB (records_ db)
                  (<[r := now + secs * ticks_per_second]> (ttlMap_ db)))).
Proof.
  intros Hr Hsecs. unfold read_ttl.
  erewrite pbind_normal by by apply next_line_line.
  erewrite pbind_normal by apply next_line_line, show_int_no_newline.
  erewrite pbind_normal by by apply to_int_show_int.
  done.
Qed.

Lemma read_ttls_ok now l rest db :
  Forall ttl_pair_ok l →
  repeat_loop (length l) (read_ttl now) (mkP (write_ttls l +:+ rest) db) =
  (Normal tt,
   mkP rest (mkDB (records_ db) (add_ttls now (ttlMap_ db) l))).
Proof.
  intros Hl. revert db. induction Hl as [|[r secs] l [Hr Hs] Hl IH]; intros db.
  - cbn. by destruct db.
  - cbn [length repeat_loop write_ttls].
    rewrite !string_app_assoc.
    erewrite pbind_normal by by apply read_ttl_ok.
    rewrite IH. done.
Qed.

End roundtrip.

(** ** The tables built by a run of inserts *)

Lemma foldl_insert_lookup {A B} (g : A → B) (m : gmap string B)
    (l : list (string * A)) (k : string) :
  NoDup l.*1 →
  foldl (λ m p, <[p.1 := g p.2]> m) m l !! k =
  match (list_to_map l : gmap string A) !! k with
  | Some a => Some (g a)
  | None => m !! k
  end.
Proof.
  revert m. induction l as [|[k' a] l IH]; intros m Hnd.
  - cbn. by rewrite lookup_empty.
  - apply NoDup_cons in Hnd as [Hk' Hnd]. cbn [foldl fst snd].
    rewrite IH by done. cbn [list_to_map foldr fst snd].
    destruct (decide (k' = k)) as [->|Hne].
    + rewrite (not_elem_of_list_to_map_1 l k) by done.
      by rewrite !lookup_insert_eq.
    + by rewrite !lookup_insert_ne by done.
Qed.

Lemma foldl_insert_other {A B} (g : A → B) (m : gmap string B)
    (l : list (string * A)) (k : string) :
  k ∉ l.*1 → foldl (λ m p, <[p.1 := g p.2]> m) m l !! k = m !! k.
Proof.
  revert m. induction l as [|[k' a] l IH]; intros m Hin; [done|].
  cbn [fmap list_fmap fst] in Hin. apply not_elem_of_cons in Hin as [Hne Hin].
  cbn [foldl fst snd]. rewrite IH by done. by apply lookup_insert_ne.
Qed.

Lemma foldl_insert_lookup_id {A} (m : gmap string A)
    (l : list (string * A)) (k : string) :
  NoDup l.*1 →
  foldl (λ m p, <[p.1 := p.2]> m) m l !! k =
  match (list_to_map l : gmap string A) !! k with
  | Some a => Some a
  | None => m !! k
  end.
Proof. apply (foldl_insert_lookup (λ a, a)). Qed.

Lemma add_fields_lookup_ne recs r l r' :
  r ≠ r' → add_fields recs r l !! r' = recs !! r'.
Proof.
  intros Hne. revert recs. induction l as [|p l IH]; intros recs; [done|].
  cbn [add_fields foldl]. fold (add_fields (assign_field recs r p.1 p.2) r l).
  rewrite IH. unfold assign_field. by rewrite lookup_insert_ne.
Qed.

Lemma add_fields_lookup recs r l :
  add_fields recs r l !! r =
  match l with
  | [] => recs !! r
  | _ => Some (foldl (λ m p, <[p.1 := p.2]> m) (default ∅ (recs !! r)) l)
  end.
Proof.
  revert recs. induction l as [|p l IH]; intros recs; [done|].
  cbn [add_fields foldl]. fold (add_fields (assign_field recs r p.1 p.2) r l).
  rewrite IH. unfold assign_field. rewrite lookup_insert_eq. cbn [default].
  by destruct l.
Qed.

Section restored_tables.
Context `{!StdImpl}.

Lemma list_to_map_iteration {A} (m : gmap string A) :
  list_to_map (iteration m) = m.
Proof.
  rewrite <- (list_to_map_to_list m) at 2.
  apply list_to_map_proper; [apply iteration_NoDup_fst|apply iteration_perm].
Qed.

Lemma iteration_nil {A} (m : gmap string A) : iteration m = [] ↔ m = ∅.
Proof.
  rewrite <- map_size_empty_iff, <- iteration_length. split.
  - by intros ->.
  - apply nil_length_inv.
Qed.

Lemma add_fields_fresh recs r fs :
  recs !! r = None →
  add_fields recs r (iteration fs) =
  if decide (fs = ∅) then recs else <[r := fs]> recs.
Proof.
  intros Hr. apply map_eq. intros r'.
  destruct (decide (r = r')) as [<-|Hne].
  - rewrite add_fields_lookup. destruct (decide (fs = ∅)) as [Hfs|Hfs].
    + apply iteration_nil in Hfs. by rewrite Hfs.
    + rewrite lookup_insert_eq.
      destruct (iteration fs) as [|p l] eqn:Hit; [by apply iteration_nil in Hit|].
      rewrite <- Hit. f_equal. apply map_eq. intros f.
      rewrite foldl_insert_lookup_id by apply iteration_NoDup_fst.
      rewrite list_to_map_iteration, Hr. cbn [default].
      rewrite lookup_empty. by destruct (fs !! f).
  - rewrite add_fields_lookup_ne by done.
    destruct (decide (fs = ∅)); [done|]. by rewrite lookup_insert_ne.
Qed.

Lemma add_records_lookup db0 recs ids r :
  NoDup ids → (∀ x, x ∈ ids → recs !! x = None) →
  add_records db0 recs ids !! r =
  if decide (r ∈ ids ∧ fields_of db0 r ≠ ∅) then Some (fields_of db0 r)
  else recs !! r.
Proof.
  revert recs. induction ids as [|x ids IH]; intros recs Hnd Hfresh.
  - cbn. rewrite decide_False; [done|]. intros [Hin _].
    by apply elem_of_nil in Hin.
  - apply NoDup_cons in Hnd as [Hx Hnd]. cbn [add_records foldl].
    fold (add_records db0 (add_fields recs x (iteration (fields_of db0 x))) ids).
    rewrite add_fields_fresh by (apply Hfresh; left).
    rewrite IH; [|done|].
    + destruct (decide (x = r)) as [->|Hne].
      * destruct (decide (fields_of db0 r = ∅)) as [Hfs|Hfs].
        -- rewrite !decide_False by tauto. done.
        -- rewrite decide_False by tauto. rewrite lookup_insert_eq.
           rewrite decide_True; [done|]. split; [left|done].
      * assert ((r ∈ x :: ids) ↔ r ∈ ids) as Hiff.
        { rewrite elem_of_cons. split; [intros [->|?]; done|by right]. }
        destruct (decide (r ∈ ids ∧ fields_of db0 r ≠ ∅)) as [Hy|Hn];
          destruct (decide (r ∈ x :: ids ∧ fields_of db0 r ≠ ∅)) as [Hy'|Hn'];
          [done|tauto|tauto|].
        destruct (decide (fields_of db0 x = ∅)); [done|].
        by rewrite lookup_insert_ne.
    + intros y Hy. destruct (decide (fields_of db0 x = ∅)).
      * apply Hfresh. by right.
      * rewrite lookup_insert_ne by (intros ->; done).
        apply Hfresh. by right.
Qed.

Lemma valid_record_ids_NoDup now db : NoDup (valid_record_ids now db).
Proof. apply NoDup_filter, iteration_NoDup_fst. Qed.

Lemma elem_of_valid_record_ids now db r :
  r ∈ valid_record_ids now db ↔
  is_Some (records_ db !! r) ∧ isRecordExpired now db r = false.
Proof.
  unfold valid_record_ids.
  rewrite list_elem_of_filter, elem_of_iteration_keys. tauto.
Qed.

Lemma valid_record_ids_length now db :
  (length (valid_record_ids now db) ≤ size (records_ db))%nat.
Proof.
  unfold valid_record_ids. etrans; [apply length_filter|].
  by rewrite length_fmap, iteration_length.
Qed.

Lemma collect_ttls_keys now db ids :
  (collect_ttls now db ids).*1 `sublist_of` ids.
Proof.
  induction ids as [|r ids IH]; [done|].
  unfold collect_ttls. cbn [omap list_omap].
  fold (collect_ttls now db ids).
  destruct (ttlMap_ db !! r) as [e|]; [|by apply sublist_cons].
  case_bool_decide; [by apply sublist_skip|by apply sublist_cons].
Qed.

Lemma collect_ttls_length now db ids :
  (length (collect_ttls now db ids) ≤ length ids)%nat.
Proof.
  rewrite <- (length_fmap fst (collect_ttls now db ids)).
  apply sublist_length, collect_ttls_keys.
Qed.

Lemma elem_of_collect_ttls now db ids r secs :
  (r, secs) ∈ collect_ttls now db ids ↔
  r ∈ ids ∧ ∃ e, ttlMap_ db !! r = Some e ∧
                 0 < remaining_seconds now e ∧
                 secs = to_int32 (remaining_seconds now e).
Proof.
  unfold collect_ttls. rewrite list_elem_of_omap. split.
  - intros (r' & Hin & Hsome). destruct (ttlMap_ db !! r') as [e|] eqn:He;
      [|done]. case_bool_decide; [|done]. injection Hsome as <- <-. eauto.
  - intros (Hin & e & He & Hpos & ->). exists r. split; [done|].
    rewrite He. by rewrite bool_decide_eq_true_2.
Qed.

End restored_tables.

(** ** [restore] applied to the output of [backup] *)

Section restore_backup.
Context `{!StdImpl}.

Lemma restore_body_backup t1 t2 db0 :
  storable db0 →
  restore_body t2 (mkP (backup t1 db0) emptyDB) =
  (Normal tt,
   mkP EmptyString
     (mkDB (add_records db0 ∅ (valid_record_ids t1 db0))
           (add_ttls t2 ∅
              (collect_ttls t1 db0 (valid_record_ids t1 db0))))).
Proof.
  intros [Hsize Hrecs]. unfold restore_body, backup.
  pose proof (valid_record_ids_length t1 db0) as Hlen.
  pose proof (collect_ttls_length t1 db0 (valid_record_ids t1 db0)) as Hlen'.
  erewrite pbind_normal by apply next_line_line, show_size_no_newline.
  erewrite pbind_normal by (apply to_int_show_size; lia).
  unfold for_count. rewrite Nat2Z.id.
  erewrite pbind_normal; cycle 1.
  { apply read_records_ok. apply Forall_forall.
    intros r [Hr _]%elem_of_valid_record_ids. by apply Hrecs. }
  cbn [records_ ttlMap_ emptyDB].
  erewrite pbind_normal by apply next_line_line, show_size_no_newline.
  erewrite pbind_normal by (apply to_int_show_size; lia).
  rewrite Nat2Z.id.
  rewrite <- (string_app_empty_r (write_ttls _)).
  rewrite read_ttls_ok; [done|].
  apply Forall_forall.
  intros [r secs] (Hin & e & _ & _ & ->)%elem_of_collect_ttls.
  split; [|apply to_int32_in_int].
  apply elem_of_valid_record_ids in Hin as [Hr _].
  by destruct (Hrecs r Hr) as [? _].
Qed.

Lemma restore_backup t1 t2 db db0 :
  storable db0 →
  (restore t2 db (backup t1 db0)).1 = true ∧
  (∀ r, records_ (restore t2 db (backup t1 db0)).2 !! r
        = restored_record t1 db0 r) ∧
  (∀ r, ttlMap_ (restore t2 db (backup t1 db0)).2 !! r
        = restored_ttl t1 t2 db0 r).
Proof.
  intros Hst. unfold restore. rewrite restore_body_backup by done.
  cbn [fst snd pdb records_ ttlMap_]. split_and!; [done|..]; intros r.
  - rewrite add_records_lookup;
      [|apply valid_record_ids_NoDup|intros; apply lookup_empty].
    rewrite lookup_empty. unfold restored_record, fields_of.
    case_decide as Hdec; rewrite elem_of_valid_record_ids in Hdec.
    + destruct Hdec as [[[fs Hfs] Hlive] Hne]. rewrite Hlive, Hfs in *.
      cbn [default] in *. by rewrite decide_False.
    + destruct (isRecordExpired t1 db0 r); [done|].
      destruct (records_ db0 !! r) as [fs|] eqn:Hfs; [|done].
      case_decide; [done|]. exfalso. apply Hdec. cbn [default]. eauto.
  - unfold add_ttls.
    pose proof (valid_record_ids_NoDup t1 db0) as Hnd.
    assert (NoDup (collect_ttls t1 db0 (valid_record_ids t1 db0)).*1) as Hnd'.
    { eapply sublist_NoDup; [exact Hnd|apply collect_ttls_keys]. }
    rewrite (foldl_insert_lookup (λ secs, t2 + secs * ticks_per_second))
      by done.
    rewrite lookup_empty. unfold restored_ttl.
    destruct (list_to_map _ !! r) as [secs|] eqn:Hl.
    + apply elem_of_list_to_map_2 in Hl.
      apply elem_of_collect_ttls in Hl as (Hin & e & He & Hpos & ->).
      apply elem_of_valid_record_ids in Hin as [[fs Hfs] Hlive].
      rewrite Hlive, Hfs, He. by rewrite bool_decide_eq_true_2.
    + apply not_elem_of_list_to_map_2 in Hl.
      destruct (isRecordExpired t1 db0 r) eqn:Hlive; [done|].
      destruct (records_ db0 !! r) as [fs|] eqn:Hfs; [|done].
      destruct (ttlMap_ db0 !! r) as [e|] eqn:He; [|done].
      case_bool_decide as Hpos; [|done]. exfalso. apply Hl.
      apply list_elem_of_fmap.
      exists (r, to_int32 (remaining_seconds t1 e)). split; [done|].
      apply elem_of_collect_ttls. split; [|by eauto].
      apply elem_of_valid_record_ids. eauto.
Qed.

Lemma ends_with_newline_suffix a b :
  ends_with_newline b = true → ends_with_newline (a +:+ b) = true.
Proof.
  intros Hb. induction a as [|c a IH]; [done|]. rewrite string_app_cons.
  cbn [ends_with_newline]. rewrite IH.
  destruct (a +:+ b); [discriminate IH|done].
Qed.

Lemma write_ttls_ends_with_newline l :
  ends_with_newline (nl +:+ write_ttls l) = true.
Proof.
  induction l as [|[r secs] l IH]; [done|]. cbn [write_ttls].
  do 4 apply ends_with_newline_suffix. apply IH.
Qed.

Lemma backup_ends_with_newline t1 db : ends_with_newline (backup t1 db) = true.
Proof.
  unfold backup. do 4 apply ends_with_newline_suffix.
  apply write_ttls_ends_with_newline.
Qed.

(** On a genuine snapshot, whatever follows it is ignored. *)
Lemma restore_backup_with_trailing_text t1 t2 db db0 extra :
  storable db0 →
  restore t2 db (backup t1 db0 +:+ extra) = restore t2 db (backup t1 db0).
Proof.
  intros Hst. unfold restore.
  pose proof (restore_body_backup t1 t2 db0 Hst) as Hrun.
  destruct (restore_body_extension t2 (backup t1 db0) extra _
              (or_intror (or_introl (backup_ends_with_newline t1 db0))) Hrun)
    as [u' ->].
  by rewrite Hrun.
Qed.

End restore_backup.

(** ** Sequences of operations and what they preserve *)

Lemma emptyDB_no_empty_record : no_empty_record emptyDB.
Proof. intros r. cbn. by rewrite lookup_empty. Qed.

Lemma emptyDB_ttl_in_records : ttl_in_records emptyDB.
Proof. intros r. cbn. rewrite lookup_empty. by intros [? ?]. Qed.

Lemma emptyDB_newline_free : newline_free emptyDB.
Proof. intros r fields. cbn. by rewrite lookup_empty. Qed.

Section preservation.
Context `{!StdImpl}.

Lemma cleanup_no_empty_record db r :
  no_empty_record db → no_empty_record (cleanupExpiredRecord db r).
Proof.
  intros Hinv r'. cbn. destruct (decide (r = r')) as [->|Hne].
  - by rewrite lookup_delete_eq.
  - rewrite lookup_delete_ne by done. apply Hinv.
Qed.

Lemma cleanup_ttl_in_records db r :
  ttl_in_records db → ttl_in_records (cleanupExpiredRecord db r).
Proof.
  intros Hinv r'. cbn. destruct (decide (r = r')) as [->|Hne].
  - rewrite lookup_delete_eq. by intros [? ?].
  - rewrite !lookup_delete_ne by done. apply Hinv.
Qed.

Lemma cleanup_newline_free db r :
  newline_free db → newline_free (cleanupExpiredRecord db r).
Proof.
  intros Hinv r' fields. cbn. destruct (decide (r = r')) as [->|Hne].
  - by rewrite lookup_delete_eq.
  - rewrite lookup_delete_ne by done. apply Hinv.
Qed.

Lemma cleanup_ttl_within t db r :
  ttl_within t db → ttl_within t (cleanupExpiredRecord db r).
Proof.
  intros Hinv r' e. cbn. destruct (decide (r = r')) as [->|Hne].
  - by rewrite lookup_delete_eq.
  - rewrite lookup_delete_ne by done. apply Hinv.
Qed.

(** [set] *)

Lemma set_unfold now db r f v :
  set now db r f v =
  let db1 := if isRecordExpired now db r
             then cleanupExpiredRecord db r else db in
  mkDB (<[r := <[f := v]> (fields_of db1 r)]> (records_ db1)) (ttlMap_ db1).
Proof. done. Qed.

Lemma set_no_empty_record now db r f v :
  no_empty_record db → no_empty_record (set now db r f v).
Proof.
  intros Hinv. rewrite set_unfold. cbn zeta.
  assert (no_empty_record
    (if isRecordExpired now db r then cleanupExpiredRecord db r else db))
    as Hinv1 by (destruct (isRecordExpired now db r);
                 auto using cleanup_no_empty_record).
  intros r'. cbn [records_]. destruct (decide (r = r')) as [<-|Hne].
  - rewrite lookup_insert_eq. intros [= Hemp].
    by apply insert_non_empty in Hemp.
  - rewrite lookup_insert_ne by done. apply Hinv1.
Qed.

Lemma set_ttl_in_records now db r f v :
  ttl_in_records db → ttl_in_records (set now db r f v).
Proof.
  intros Hinv. rewrite set_unfold. cbn zeta.
  assert (ttl_in_records
    (if isRecordExpired now db r then cleanupExpiredRecord db r else db))
    as Hinv1 by (destruct (isRecordExpired now db r);
                 auto using cleanup_ttl_in_records).
  intros r'. cbn [records_ ttlMap_]. destruct (decide (r = r')) as [<-|Hne].
  - rewrite lookup_insert_eq. by eauto.
  - rewrite lookup_insert_ne by done. apply Hinv1.
Qed.

Lemma set_newline_free now db r f v :
  has_newline r = false → has_newline f = false → has_newline v = false →
  newline_free db → newline_free (set now db r f v).
Proof.
  intros Hr Hf Hv Hinv. rewrite set_unfold. cbn zeta.
  assert (newline_free
    (if isRecordExpired now db r then cleanupExpiredRecord db r else db))
    as Hinv1 by (destruct (isRecordExpired now db r);
                 auto using cleanup_newline_free).
  intros r' fields. cbn [records_]. destruct (decide (r = r')) as [<-|Hne].
  - rewrite lookup_insert_eq. intros [= <-]. split; [done|].
    intros f' v'. destruct (decide (f = f')) as [<-|Hnf].
    + rewrite lookup_insert_eq. by intros [= <-].
    + rewrite lookup_insert_ne by done. unfold fields_of.
      destruct (records_ _ !! r) as [fs|] eqn:Hfs; cbn [default].
      * by apply (Hinv1 r fs).
      * by rewrite lookup_empty.
  - rewrite lookup_insert_ne by done. apply Hinv1.
Qed.

Lemma set_ttl_within t now db r f v :
  ttl_within t db → ttl_within t (set now db r f v).
Proof.
  intros Hinv. rewrite set_unfold. cbn zeta. intros r' e. cbn [ttlMap_].
  destruct (isRecordExpired now db r); [|apply Hinv].
  by apply cleanup_ttl_within.
Qed.

(** [deleteField] *)

Lemma deleteField_cases now db r f :
  (deleteField now db r f).2 = db ∨
  (deleteField now db r f).2 = cleanupExpiredRecord db r ∨
  ∃ fields, records_ db !! r = Some fields ∧ delete f fields ≠ ∅ ∧
    (deleteField now db r f).2 =
    mkDB (<[r := delete f fields]> (records_ db)) (ttlMap_ db).
Proof.
  unfold deleteField. destruct (isRecordExpired now db r); [by right; left|].
  destruct (records_ db !! r) as [fields|] eqn:Hr; [|by left].
  destruct (fields !! f); [|by left].
  case_decide; [by right; left|]. right; right. by exists fields.
Qed.

Lemma deleteField_no_empty_record now db r f :
  no_empty_record db → no_empty_record (deleteField now db r f).2.
Proof.
  intros Hinv.
  destruct (deleteField_cases now db r f)
    as [->|[->|(fields & Hr & Hne & ->)]];
    [done|by apply cleanup_no_empty_record|].
  intros r'. cbn [records_]. destruct (decide (r = r')) as [<-|Hnr].
  - rewrite lookup_insert_eq. by intros [= ?].
  - rewrite lookup_insert_ne by done. apply Hinv.
Qed.

Lemma deleteField_ttl_in_records now db r f :
  ttl_in_records db → ttl_in_records (deleteField now db r f).2.
Proof.
  intros Hinv.
  destruct (deleteField_cases now db r f)
    as [->|[->|(fields & Hr & Hne & ->)]];
    [done|by apply cleanup_ttl_in_records|].
  intros r'. cbn [records_ ttlMap_]. destruct (decide (r = r')) as [<-|Hnr].
  - rewrite lookup_insert_eq. by eauto.
  - rewrite lookup_insert_ne by done. apply Hinv.
Qed.

Lemma deleteField_newline_free now db r f :
  newline_free db → newline_free (deleteField now db r f).2.
Proof.
  intros Hinv.
  destruct (deleteField_cases now db r f)
    as [->|[->|(fields & Hr & Hne & ->)]];
    [done|by apply cleanup_newline_free|].
  intros r' fields'. cbn [records_]. destruct (decide (r = r')) as [<-|Hnr].
  - rewrite lookup_insert_eq. intros [= <-].
    destruct (Hinv r fields Hr) as [Hnl Hfs]. split; [done|].
    intros f' v' [_ Hf']%lookup_delete_Some. by apply Hfs.
  - rewrite lookup_insert_ne by done. apply Hinv.
Qed.

Lemma deleteField_ttl_within t now db r f :
  ttl_within t db → ttl_within t (deleteField now db r f).2.
Proof.
  intros Hinv.
  destruct (deleteField_cases now db r f)
    as [->|[->|(fields & Hr & Hne & ->)]];
    [done|by apply cleanup_ttl_within|].
  intros r' e. cbn [ttlMap_]. apply Hinv.
Qed.

(** [deleteRecord] *)

Lemma deleteRecord_cases db r :
  (deleteRecord db r).2 = db ∨
  (deleteRecord db r).2 = cleanupExpiredRecord db r.
Proof.
  unfold deleteRecord. destruct (records_ db !! r); [by right|by left].
Qed.

(** [setTTL] *)

Lemma setTTL_cases now db r ttl :
  setTTL now db r ttl = db ∨
  is_Some (records_ db !! r) ∧
  setTTL now db r ttl =
  mkDB (records_ db) (<[r := now + ttl * ticks_per_second]> (ttlMap_ db)).
Proof.
  unfold setTTL. destruct (records_ db !! r); [right; eauto|by left].
Qed.

Lemma setTTL_no_empty_record now db r ttl :
  no_empty_record db → no_empty_record (setTTL now db r ttl).
Proof.
  intros Hinv. destruct (setTTL_cases now db r ttl) as [->|[_ ->]]; [done|].
  intros r'. apply Hinv.
Qed.

Lemma setTTL_ttl_in_records now db r ttl :
  ttl_in_records db → ttl_in_records (setTTL now db r ttl).
Proof.
  intros Hinv. destruct (setTTL_cases now db r ttl) as [->|[Hr ->]]; [done|].
  intros r'. cbn [records_ ttlMap_]. destruct (decide (r = r')) as [<-|Hnr].
  - done.
  - rewrite lookup_insert_ne by done. apply Hinv.
Qed.

Lemma setTTL_newline_free now db r ttl :
  newline_free db → newline_free (setTTL now db r ttl).
Proof.
  intros Hinv. destruct (setTTL_cases now db r ttl) as [->|[_ ->]]; [done|].
  intros r'. apply Hinv.
Qed.

Lemma setTTL_ttl_within t now db r ttl :
  now ≤ t → ttl ≤ INT_MAX →
  ttl_within t db → ttl_within t (setTTL now db r ttl).
Proof.
  intros Hnow Httl Hinv.
  destruct (setTTL_cases now db r ttl) as [->|[_ ->]]; [done|].
  intros r' e. cbn [ttlMap_]. destruct (decide (r = r')) as [<-|Hnr].
  - rewrite lookup_insert_eq. intros [= <-].
    pose proof ticks_per_second_pos. nia.
  - rewrite lookup_insert_ne by done. apply Hinv.
Qed.

(** [expireRecords] *)

Lemma expireRecords_no_empty_record now db :
  no_empty_record db → no_empty_record (expireRecords now db).2.
Proof.
  intros Hinv r. rewrite expireRecords_records.
  intros [Hr _]%map_lookup_filter_Some. by apply (Hinv r).
Qed.

Lemma expireRecords_ttl_in_records now db :
  ttl_in_records db → ttl_in_records (expireRecords now db).2.
Proof.
  intros Hinv r. rewrite expireRecords_records, expireRecords_ttl.
  intros [e [He Hlt]%map_lookup_filter_Some]. cbn [snd] in Hlt.
  destruct (Hinv r) as [fields Hr]; [by eauto|].
  exists fields. apply map_lookup_filter_Some. split; [done|]. cbn [fst].
  apply isRecordExpired_false. intros e' He'.
  assert (e' = e) as -> by congruence. done.
Qed.

End preservation.

(** ** The round-trip law *)

Section round_trip.
Context `{!StdImpl}.

Lemma apply_op_invariants t1 step db :
  step_ok t1 step →
  no_empty_record db ∧ newline_free db ∧ ttl_within t1 db →
  no_empty_record (apply_op step.1 db step.2) ∧
  newline_free (apply_op step.1 db step.2) ∧
  ttl_within t1 (apply_op step.1 db step.2).
Proof.
  destruct step as [now [r f v|r f|r|r ttl]]; unfold step_ok;
    cbn [fst snd apply_op]; intros [Hnow Hok] (Hne & Hnl & Httl).
  - destruct Hok as (Hr & Hf & Hv).
    auto using set_no_empty_record, set_newline_free, set_ttl_within.
  - auto using deleteField_no_empty_record, deleteField_newline_free,
      deleteField_ttl_within.
  - destruct (deleteRecord_cases db r) as [->| ->]; [done|].
    auto using cleanup_no_empty_record, cleanup_newline_free,
      cleanup_ttl_within.
  - split_and!; [by apply setTTL_no_empty_record
                |by apply setTTL_newline_free
                |apply setTTL_ttl_within; [done|lia|done]].
Qed.

Lemma run_invariants t1 steps db :
  Forall (step_ok t1) steps →
  no_empty_record db ∧ newline_free db ∧ ttl_within t1 db →
  no_empty_record (run db steps) ∧ newline_free (run db steps) ∧
  ttl_within t1 (run db steps).
Proof.
  intros Hsteps. revert db.
  induction Hsteps as [|step steps Hstep Hsteps IH]; intros db Hinv; [done|].
  cbn [run foldl]. apply IH. by apply apply_op_invariants.
Qed.

Lemma run_emptyDB_invariants t1 steps :
  Forall (step_ok t1) steps →
  no_empty_record (run emptyDB steps) ∧ newline_free (run emptyDB steps) ∧
  ttl_within t1 (run emptyDB steps).
Proof.
  intros Hsteps. apply run_invariants; [done|].
  split_and!; [apply emptyDB_no_empty_record|apply emptyDB_newline_free|].
  intros r e. cbn. by rewrite lookup_empty.
Qed.

Lemma storable_intro db : newline_free db → counts_fit db → storable db.
Proof.
  intros Hnl [Hsize Hfields]. split; [done|].
  intros r [fields Hr]. unfold record_ok, fields_of. rewrite Hr. cbn [default].
  destruct (Hnl r fields Hr) as [Hr' Hfs]. split_and!; [done| |done].
  by apply (Hfields r fields).
Qed.

Lemma remaining_seconds_bound t1 db r e :
  ttl_within t1 db → ttlMap_ db !! r = Some e →
  remaining_seconds t1 e ≤ INT_MAX.
Proof.
  intros Hw He. specialize (Hw r e He). unfold remaining_seconds.
  pose proof ticks_per_second_pos as Hpos.
  rewrite <- (Z.quot_mul INT_MAX ticks_per_second) by lia.
  apply Z.quot_le_mono; lia.
Qed.

(** After [restore] every TTL entry lies strictly in the future, provided
    the remaining seconds fit in an [int]. *)
Lemma restored_ttl_in_future t1 t2 db r e' :
  ttl_within t1 db → restored_ttl t1 t2 db r = Some e' → t2 < e'.
Proof.
  intros Hw. unfold restored_ttl.
  destruct (isRecordExpired t1 db r); [done|].
  destruct (records_ db !! r); [|done].
  destruct (ttlMap_ db !! r) as [e|] eqn:He; [|done].
  case_bool_decide as Hpos; [|done]. intros [= <-].
  pose proof (remaining_seconds_bound t1 db r e Hw He) as Hle.
  rewrite to_int32_small by (unfold in_int, INT_MIN; lia).
  pose proof ticks_per_second_pos. nia.
Qed.

Lemma restored_record_no_empty t1 db r :
  no_empty_record db →
  restored_record t1 db r =
  if isRecordExpired t1 db r then None else records_ db !! r.
Proof.
  intros Hne. unfold restored_record.
  destruct (isRecordExpired t1 db r); [done|].
  destruct (records_ db !! r) as [fields|] eqn:Hr; [|done].
  rewrite decide_False; [done|]. intros ->. by apply (Hne r).
Qed.

Lemma isRecordExpired_window t1 t2 db r :
  t1 ≤ t2 → none_expires_between t1 t2 db →
  isRecordExpired t2 db r = isRecordExpired t1 db r.
Proof.
  intros Hle Hwin. unfold isRecordExpired.
  destruct (ttlMap_ db !! r) as [e|] eqn:He; [|done].
  specialize (Hwin r e He). cbn in Hwin.
  apply bool_decide_ext. lia.
Qed.

(** The state reached by [restore] is indistinguishable from the state that
    was backed up. *)
Lemma restored_observationally_equal t1 t2 db db' :
  t1 ≤ t2 → none_expires_between t1 t2 db →
  no_empty_record db → ttl_within t1 db →
  (∀ r, records_ db' !! r = restored_record t1 db r) →
  (∀ r, ttlMap_ db' !! r = restored_ttl t1 t2 db r) →
  observationally_equal t2 db' db.
Proof.
  intros Hle Hwin Hne Hw Hrec Httl.
  assert (∀ r, isRecordExpired t2 db' r = false) as Hlive'.
  { intros r. apply isRecordExpired_false. intros e'. rewrite Httl.
    by apply restored_ttl_in_future. }
  assert (∀ r, records_ db' !! r =
               if isRecordExpired t2 db r then None else records_ db !! r)
    as Hrec'.
  { intros r. rewrite Hrec, restored_record_no_empty by done.
    by rewrite (isRecordExpired_window t1 t2). }
  split_and!.
  - intros r f. unfold get. rewrite Hlive', Hrec'.
    by destruct (isRecordExpired t2 db r).
  - intros r. unfold getFields. rewrite Hlive', Hrec'.
    by destruct (isRecordExpired t2 db r).
  - intros r. unfold hasRecord. rewrite Hlive', Hrec'.
    destruct (isRecordExpired t2 db r); [|done].
    apply bool_decide_eq_false. by intros [? ?].
  - unfold getAllRecordIds. apply sort_strings_unique.
    apply NoDup_Permutation;
      [apply NoDup_filter, iteration_NoDup_fst..|].
    intros r. rewrite !list_elem_of_filter, !elem_of_iteration_keys.
    rewrite Hlive', Hrec'.
    destruct (isRecordExpired t2 db r); [|tauto].
    split; [intros [_ [? ?]]; done|intros [? _]; done].
Qed.

(** C1 (amended): take any sequence of [set], [deleteField],
    [deleteRecord] and [setTTL] calls, made no later than the backup, whose
    [set] arguments contain no newline; let the resulting store hold at most
    [INT_MAX] records of at most [INT_MAX] fields each, and let no
    expiration instant fall between the backup at [t1] and the restore at
    [t2].  Then [restore(backup())] succeeds, and at [t2] the restored
    store answers [get], [getFields], [hasRecord] and [getAllRecordIds]
    exactly as the store that was backed up. *)
Theorem backup_restore_round_trip steps t1 t2 :
  Forall (step_ok t1) steps →
  counts_fit (run emptyDB steps) →
  t1 ≤ t2 →
  none_expires_between t1 t2 (run emptyDB steps) →
  (restore t2 (run emptyDB steps) (backup t1 (run emptyDB steps))).1 = true ∧
  observationally_equal t2
    (restore t2 (run emptyDB steps) (backup t1 (run emptyDB steps))).2
    (run emptyDB steps).
Proof.
  intros Hsteps Hfit Hle Hwin.
  destruct (run_emptyDB_invariants t1 steps Hsteps) as (Hne & Hnl & Hw).
  destruct (restore_backup t1 t2 (run emptyDB steps) (run emptyDB steps))
    as (Hok & Hrec & Httl); [by apply storable_intro|].
  split; [done|]. by apply (restored_observationally_equal t1).
Qed.

End round_trip.

Lemma demo_steps_ok : Forall (step_ok 10) demo_steps.
Proof. apply (bool_decide_unpack _). vm_compute. exact I. Defined.

Lemma demo_counts_fit : counts_fit (run emptyDB demo_steps).
Proof.
  split; [vm_compute; discriminate|].
  apply (bool_decide_unpack _). vm_compute. exact I.
Defined.

Lemma backup_restore_round_trip_witness :
  (restore 20 (run emptyDB demo_steps)
     (backup 10 (run emptyDB demo_steps))).1 = true ∧
  observationally_equal 20
    (restore 20 (run emptyDB demo_steps)
       (backup 10 (run emptyDB demo_steps))).2
    (run emptyDB demo_steps).
Proof.
  apply (backup_restore_round_trip demo_steps 10 20).
  - exact demo_steps_ok.
  - exact demo_counts_fit.
  - vm_compute. discriminate.
  - apply (bool_decide_unpack _). vm_compute. exact I.
Defined.

(** Level 4 of the test suite: three records, one with a TTL of an hour,
    backed up, deleted, and restored. *)
Example scenario_backup_restore :
  getAllRecordIds 5
    (restore 5 emptyDB
       (backup 2
          (setTTL 1
             (set 0 (set 0 (set 0 (set 0 (set 0 emptyDB
                "backup_test1" "name" "Test User 1")
                "backup_test1" "email" "test1@example.com")
                "backup_test2" "name" "Test User 2")
                "backup_test2" "email" "test2@example.com")
                "backup_test3" "status" "active")
             "backup_test3" 3600))).2
  = ["backup_test1"; "backup_test2"; "backup_test3"] ∧
  get 5
    (restore 5 emptyDB
       (backup 2
          (setTTL 1
             (set 0 (set 0 (set 0 (set 0 (set 0 emptyDB
                "backup_test1" "name" "Test User 1")
                "backup_test1" "email" "test1@example.com")
                "backup_test2" "name" "Test User 2")
                "backup_test2" "email" "test2@example.com")
                "backup_test3" "status" "active")
             "backup_test3" 3600))).2
    "backup_test1" "email" = Some "test1@example.com".
Proof. split; vm_compute; reflexivity. Qed.

(** C1 as stated, with arbitrary characters allowed: a value that contains
    a newline is written as two lines, [restore] then reads ["y"] where it
    expects the TTL count, [std::stoi] throws, and the store comes back
    empty although the record was there. *)
Lemma round_trip_breaks_on_newline :
  hasRecord 0 (run emptyDB [(0, OpSet "a" "k" ("x" +:+ nl +:+ "y"))]) "a"
    = true ∧
  restore 0 (run emptyDB [(0, OpSet "a" "k" ("x" +:+ nl +:+ "y"))])
    (backup 0 (run emptyDB [(0, OpSet "a" "k" ("x" +:+ nl +:+ "y"))]))
    = (false, emptyDB) ∧
  ¬ observationally_equal 0
      (restore 0 (run emptyDB [(0, OpSet "a" "k" ("x" +:+ nl +:+ "y"))])
         (backup 0 (run emptyDB [(0, OpSet "a" "k" ("x" +:+ nl +:+ "y"))]))).2
      (run emptyDB [(0, OpSet "a" "k" ("x" +:+ nl +:+ "y"))]).
Proof.
  split_and!; [vm_compute; reflexivity..|].
  intros (_ & _ & Hhas & _). specialize (Hhas "a").
  vm_compute in Hhas. discriminate.
Qed.

(** ** TTL entries belong to stored records *)

Section ttl_entries.
Context `{!StdImpl}.

Lemma run_reachable db steps : reachable db → reachable (run db steps).
Proof.
  revert db. induction steps as [|[now o] steps IH]; intros db Hdb; [done|].
  cbn [run foldl]. apply IH. cbn [fst snd].
  destruct o; cbn [apply_op]; by constructor.
Qed.

Lemma restore_backup_invariants now t db source :
  storable source → no_empty_record source →
  ttl_in_records (restore now db (backup t source)).2 ∧
  no_empty_record (restore now db (backup t source)).2.
Proof.
  intros Hst Hne.
  destruct (restore_backup t now db source Hst) as (_ & Hrec & Httl).
  split.
  - intros r. rewrite Hrec, Httl, restored_record_no_empty by done.
    unfold restored_ttl. destruct (isRecordExpired t source r).
    + by intros [? ?].
    + destruct (records_ source !! r); [by eauto|]. by intros [? ?].
  - intros r. rewrite Hrec. unfold restored_record.
    destruct (isRecordExpired t source r); [done|].
    destruct (records_ source !! r); [|done].
    case_decide; [done|]. by intros [= ?].
Qed.

Lemma reachable_invariants db :
  reachable db → ttl_in_records db ∧ no_empty_record db.
Proof.
  induction 1 as [|now db r f v _ [IH1 IH2]|now db r f _ [IH1 IH2]
                 |db r _ [IH1 IH2]|now db r ttl _ [IH1 IH2]
                 |now db _ [IH1 IH2]
                 |now t db source _ _ _ [IHs1 IHs2] Hst].
  - split; [apply emptyDB_ttl_in_records|apply emptyDB_no_empty_record].
  - auto using set_ttl_in_records, set_no_empty_record.
  - auto using deleteField_ttl_in_records, deleteField_no_empty_record.
  - destruct (deleteRecord_cases db r) as [->| ->]; [done|].
    auto using cleanup_ttl_in_records, cleanup_no_empty_record.
  - auto using setTTL_ttl_in_records, setTTL_no_empty_record.
  - auto using expireRecords_ttl_in_records, expireRecords_no_empty_record.
  - by apply restore_backup_invariants.
Qed.

(** C8 (amended): in every state reached from the empty store by [set],
    [deleteField], [deleteRecord], [setTTL], [expireRecords] and by
    [restore] of a snapshot that [backup] produced for such a state, every
    id with a TTL entry has an entry in the record table (expired or not).
    [restore] of an arbitrary string is left out: it installs whatever TTL
    pairs the text lists. *)
Theorem reachable_ttl_entries_have_records db r :
  reachable db →
  is_Some (ttlMap_ db !! r) → is_Some (records_ db !! r).
Proof. intros [Hinv _]%reachable_invariants. apply Hinv. Qed.

End ttl_entries.

Lemma demo_storable : storable (run emptyDB demo_steps).
Proof.
  apply storable_intro; [|exact demo_counts_fit].
  by destruct (run_emptyDB_invariants 10 demo_steps demo_steps_ok) as (_ & ? & _).
Defined.

Lemma reachable_ttl_entries_have_records_witness :
  is_Some (records_
    (setTTL 30
       (restore 20 emptyDB (backup 10 (run emptyDB demo_steps))).2 "t" 7)
    !! "t").
Proof.
  apply (reachable_ttl_entries_have_records
           (setTTL 30
              (restore 20 emptyDB (backup 10 (run emptyDB demo_steps))).2
              "t" 7) "t").
  - apply reach_setTTL, reach_restore_backup;
      [apply reach_empty|apply run_reachable, reach_empty
      |exact demo_storable].
  - vm_compute. eexists. reflexivity.
Defined.

(** C8 as stated, with [restore] of an arbitrary string allowed: a text
    with no record and one TTL pair is accepted, and leaves a TTL entry,
    not yet expired, for an id the record table does not know. *)
Lemma restore_installs_ttl_without_record :
  (restore 0 emptyDB
     ("0" +:+ nl +:+ "1" +:+ nl +:+ "ghost" +:+ nl +:+ "60" +:+ nl)).1 = true ∧
  ttlMap_ (restore 0 emptyDB
     ("0" +:+ nl +:+ "1" +:+ nl +:+ "ghost" +:+ nl +:+ "60" +:+ nl)).2
    !! "ghost" = Some 60000000000 ∧
  records_ (restore 0 emptyDB
     ("0" +:+ nl +:+ "1" +:+ nl +:+ "ghost" +:+ nl +:+ "60" +:+ nl)).2
    !! "ghost" = None ∧
  isRecordExpired 0 (restore 0 emptyDB
     ("0" +:+ nl +:+ "1" +:+ nl +:+ "ghost" +:+ nl +:+ "60" +:+ nl)).2
    "ghost" = false.
Proof. split_and!; vm_compute; reflexivity. Qed.

(** C9, the count on a state the operations reach: of the three records
    of the demonstration store one has run out at reading 10; the sweep
    returns 1 and the record table shrinks from three entries to two. *)
Lemma expireRecords_purges_exactly_expired_witness :
  ttl_in_records (run emptyDB demo_steps) ∧
  (expireRecords 10 (run emptyDB demo_steps)).1 = 1 ∧
  (expireRecords 10 (run emptyDB demo_steps)).1 =
    Z.of_nat (size (records_ (run emptyDB demo_steps))) -
    Z.of_nat (size (records_ (expireRecords 10 (run emptyDB demo_steps)).2)).
Proof.
  assert (ttl_in_records (run emptyDB demo_steps)) as Hin.
  { apply reachable_invariants, run_reachable, reach_empty. }
  split_and!; [exact Hin|reflexivity|].
  destruct (expireRecords_purges_exactly_expired 10 (run emptyDB demo_steps))
    as (_ & _ & _ & _ & _ & Hcount).
  exact (Hcount Hin).
Defined.

(** C9 as stated, with the count read as the number of records purged:
    after [restore] of a text with no record and one TTL pair of zero
    seconds, the sweep returns 1 although the record table is empty before
    and after it; what it removed is the TTL entry alone. *)
Lemma expireRecords_counts_ttl_entry_without_record :
  (restore 0 emptyDB
     ("0" +:+ nl +:+ "1" +:+ nl +:+ "ghost" +:+ nl +:+ "0" +:+ nl)).1 = true ∧
  size (records_ (restore 0 emptyDB
     ("0" +:+ nl +:+ "1" +:+ nl +:+ "ghost" +:+ nl +:+ "0" +:+ nl)).2)
    = 0%nat ∧
  (expireRecords 0 (restore 0 emptyDB
     ("0" +:+ nl +:+ "1" +:+ nl +:+ "ghost" +:+ nl +:+ "0" +:+ nl)).2).1 = 1 ∧
  size (records_ (expireRecords 0 (restore 0 emptyDB
     ("0" +:+ nl +:+ "1" +:+ nl +:+ "ghost" +:+ nl +:+ "0" +:+ nl)).2).2)
    = 0%nat ∧
  ttlMap_ (expireRecords 0 (restore 0 emptyDB
     ("0" +:+ nl +:+ "1" +:+ nl +:+ "ghost" +:+ nl +:+ "0" +:+ nl)).2).2
    !! "ghost" = None.
Proof. split_and!; vm_compute; reflexivity. Qed.

(** * Further properties of the operations *)

(** ** Reads depend on the live records only *)

Section live_records.
Context `{!StdImpl}.

Lemma get_live now db r f :
  get now db r f = live_record now db r ≫= (λ fields, fields !! f).
Proof.
  unfold get, live_record. destruct (isRecordExpired now db r); [done|].
  by destruct (records_ db !! r).
Qed.

Lemma hasRecord_live now db r :
  hasRecord now db r = bool_decide (is_Some (live_record now db r)).
Proof.
  unfold hasRecord, live_record. destruct (isRecordExpired now db r); [|done].
  symmetry. apply bool_decide_eq_false. by intros [? ?].
Qed.

Lemma getFields_live now db r :
  getFields now db r =
  match live_record now db r with
  | Some fields => sort_strings (iteration fields).*1
  | None => []
  end.
Proof.
  unfold getFields, live_record. destruct (isRecordExpired now db r); [done|].
  by destruct (records_ db !! r).
Qed.

Lemma elem_of_getAllRecordIds_live now db r :
  r ∈ getAllRecordIds now db ↔ is_Some (live_record now db r).
Proof.
  rewrite elem_of_getAllRecordIds. unfold live_record.
  destruct (isRecordExpired now db r).
  - split; [by intros [_ ?]|by intros [? ?]].
  - tauto.
Qed.

Lemma elem_of_getRecordsByFieldValue_live now db f v r :
  r ∈ getRecordsByFieldValue now db f v ↔
  ∃ fields, live_record now db r = Some fields ∧ fields !! f = Some v.
Proof.
  rewrite elem_of_getRecordsByFieldValue. unfold live_record.
  destruct (isRecordExpired now db r).
  - split; [by intros [? _]|by intros (? & ? & _)].
  - split; [by intros [_ ?]|done].
Qed.

Lemma getAllRecordIds_NoDup now db : NoDup (getAllRecordIds now db).
Proof.
  unfold getAllRecordIds. rewrite sort_strings_perm.
  apply NoDup_filter, iteration_NoDup_fst.
Qed.

Lemma getRecordsByFieldValue_NoDup now db f v :
  NoDup (getRecordsByFieldValue now db f v).
Proof.
  unfold getRecordsByFieldValue. rewrite sort_strings_perm.
  apply NoDup_filter_keys.
Qed.

Lemma sorted_lists_equal (l1 l2 : list string) :
  StronglySorted string_le l1 → StronglySorted string_le l2 →
  NoDup l1 → NoDup l2 → (∀ x, x ∈ l1 ↔ x ∈ l2) → l1 = l2.
Proof.
  intros Hs1 Hs2 Hn1 Hn2 Hiff.
  apply (StronglySorted_unique string_le); [done..|].
  by apply NoDup_Permutation.
Qed.

(** Two stores with the same live records, possibly at two different
    instants, give the same answer to every read. *)
Lemma reads_agree now1 db1 now2 db2 :
  (∀ r, live_record now1 db1 r = live_record now2 db2 r) →
  ∀ q, ask now1 db1 q = ask now2 db2 q.
Proof.
  intros Hlive [r f|r|r| |f v]; cbn [ask]; f_equal.
  - by rewrite !get_live, Hlive.
  - by rewrite !hasRecord_live, Hlive.
  - by rewrite !getFields_live, Hlive.
  - apply sorted_lists_equal;
      [apply sort_strings_sorted|apply sort_strings_sorted
      |apply getAllRecordIds_NoDup|apply getAllRecordIds_NoDup|].
    intros r. by rewrite !elem_of_getAllRecordIds_live, Hlive.
  - apply sorted_lists_equal;
      [apply sort_strings_sorted|apply sort_strings_sorted
      |apply getRecordsByFieldValue_NoDup
      |apply getRecordsByFieldValue_NoDup|].
    intros r. rewrite !elem_of_getRecordsByFieldValue_live.
    by setoid_rewrite Hlive.
Qed.

Lemma live_record_expired now db r :
  isRecordExpired now db r = true → live_record now db r = None.
Proof. unfold live_record. by intros ->. Qed.

Lemma live_record_cleanup_ne now db r r' :
  r ≠ r' →
  live_record now (cleanupExpiredRecord db r) r' = live_record now db r'.
Proof.
  intros Hne. unfold live_record, isRecordExpired. cbn.
  by rewrite !lookup_delete_ne.
Qed.

Lemma live_record_cleanup_eq now db r :
  live_record now (cleanupExpiredRecord db r) r = None.
Proof.
  unfold live_record, isRecordExpired. cbn. by rewrite !lookup_delete_eq.
Qed.

(** Purging a record that is expired changes nothing a read can see, at
    that instant or later. *)
Lemma live_record_cleanup_expired now now' db r r' :
  now ≤ now' → isRecordExpired now db r = true →
  live_record now' (cleanupExpiredRecord db r) r' = live_record now' db r'.
Proof.
  intros Hle Hexp. destruct (decide (r = r')) as [<-|Hne].
  - rewrite live_record_cleanup_eq. symmetry. apply live_record_expired.
    by apply (isRecordExpired_mono now).
  - by apply live_record_cleanup_ne.
Qed.

End live_records.

(** ** [set] and [get] *)

Section set_get.
Context `{!StdImpl}.

Lemma isRecordExpired_ttl_eq now a b r :
  ttlMap_ a = ttlMap_ b → isRecordExpired now a r = isRecordExpired now b r.
Proof. unfold isRecordExpired. by intros ->. Qed.

Lemma set_expired now db r f v :
  isRecordExpired now db r = true →
  set now db r f v =
  mkDB (<[r := {[ f := v ]}]> (delete r (records_ db)))
       (delete r (ttlMap_ db)).
Proof.
  intros Hexp. unfold set, assign_field. rewrite Hexp.
  cbn [cleanupExpiredRecord records_ ttlMap_].
  by rewrite lookup_delete_eq.
Qed.

Lemma set_live now db r f v :
  isRecordExpired now db r = false →
  set now db r f v =
  mkDB (<[r := <[f := v]> (fields_of db r)]> (records_ db)) (ttlMap_ db).
Proof. intros Hlive. unfold set, assign_field. by rewrite Hlive. Qed.

(** X1: what [set] stored is what [get] returns, at every instant at which
    the record's TTL entry, if it has one that had not run out when [set]
    was called, has still not run out. *)
Theorem get_after_set now now' db r f v :
  (∀ expiry, ttlMap_ db !! r = Some expiry → expiry ≤ now ∨ now' < expiry) →
  get now' (set now db r f v) r f = Some v.
Proof.
  intros Hwin. destruct (isRecordExpired now db r) eqn:Hexp.
  - rewrite set_expired by done. unfold get, isRecordExpired.
    cbn [records_ ttlMap_]. rewrite lookup_delete_eq, lookup_insert_eq.
    apply lookup_singleton_eq.
  - rewrite set_live by done. unfold get.
    rewrite (isRecordExpired_ttl_eq now' _ db) by done.
    assert (isRecordExpired now' db r = false) as ->.
    { apply isRecordExpired_false. intros e He.
      pose proof (proj1 (isRecordExpired_false now db r) Hexp e He).
      destruct (Hwin e He); [lia|done]. }
    cbn [records_]. rewrite lookup_insert_eq. apply lookup_insert_eq.
Qed.

(** X2: [set] on one field leaves every other field of every record as a
    later [get] sees it. *)
Theorem set_leaves_other_fields now now' db r f v r' f' :
  now ≤ now' → (r', f') ≠ (r, f) →
  get now' (set now db r f v) r' f' = get now' db r' f'.
Proof.
  intros Hle Hne. destruct (isRecordExpired now db r) eqn:Hexp.
  - rewrite set_expired by done. unfold get at 1. unfold isRecordExpired.
    cbn [records_ ttlMap_]. destruct (decide (r = r')) as [<-|Hnr].
    + rewrite lookup_delete_eq, lookup_insert_eq.
      rewrite lookup_singleton_ne by congruence.
      symmetry. apply get_expired. by apply (isRecordExpired_mono now).
    + by rewrite lookup_delete_ne, lookup_insert_ne, lookup_delete_ne.
  - rewrite set_live by done. unfold get.
    rewrite (isRecordExpired_ttl_eq now' _ db) by done.
    destruct (isRecordExpired now' db r'); [done|]. cbn [records_].
    destruct (decide (r = r')) as [<-|Hnr].
    + rewrite lookup_insert_eq, lookup_insert_ne by congruence.
      unfold fields_of. by destruct (records_ db !! r).
    + by rewrite lookup_insert_ne.
Qed.

(** X3: [set] on a record whose expiration instant has passed does not
    bring the old record back: the old fields and the TTL entry are
    dropped, and the record holds the new field only and never expires. *)
Theorem set_on_expired_record_starts_afresh now db r f v :
  isRecordExpired now db r = true →
  records_ (set now db r f v) !! r = Some {[ f := v ]} ∧
  ttlMap_ (set now db r f v) !! r = None ∧
  (∀ now', getFields now' (set now db r f v) r = [f]) ∧
  (∀ now', hasRecord now' (set now db r f v) r = true).
Proof.
  intros Hexp. rewrite set_expired by done. cbn [records_ ttlMap_].
  rewrite lookup_insert_eq, lookup_delete_eq. split_and!; [done|done|..].
  - intros now'. unfold getFields, isRecordExpired. cbn [records_ ttlMap_].
    rewrite lookup_delete_eq, lookup_insert_eq.
    apply Permutation_singleton_r. rewrite sort_strings_perm.
    by rewrite iteration_perm, map_to_list_singleton.
  - intros now'. unfold hasRecord, isRecordExpired. cbn [records_ ttlMap_].
    rewrite lookup_delete_eq, lookup_insert_eq.
    apply bool_decide_eq_true. by eexists.
Qed.

End set_get.

Lemma get_after_set_witness :
  get 9 (set 3 (setTTL 0 (set 0 emptyDB "a" "k" "old") "a" 1) "a" "k" "new")
    "a" "k" = Some "new".
Proof.
  apply (get_after_set 3 9).
  intros expiry Hexp. vm_compute in Hexp. injection Hexp as <-.
  right. reflexivity.
Defined.

Lemma set_leaves_other_fields_witness :
  get 9 (set 3 (set 0 emptyDB "a" "k" "v") "a" "other" "w") "a" "k"
  = get 9 (set 0 emptyDB "a" "k" "v") "a" "k".
Proof.
  apply (set_leaves_other_fields 3 9); [vm_compute; discriminate|].
  intros Heq. discriminate Heq.
Defined.

Lemma set_on_expired_record_starts_afresh_witness :
  records_ (set 5 (setTTL 0 (set 0 emptyDB "t" "d" "x") "t" 0) "t" "e" "y")
    !! "t" = Some {[ "e" := "y" ]} ∧
  ttlMap_ (set 5 (setTTL 0 (set 0 emptyDB "t" "d" "x") "t" 0) "t" "e" "y")
    !! "t" = None ∧
  (∀ now',
     getFields now'
       (set 5 (setTTL 0 (set 0 emptyDB "t" "d" "x") "t" 0) "t" "e" "y") "t"
     = ["e"]) ∧
  (∀ now',
     hasRecord now'
       (set 5 (setTTL 0 (set 0 emptyDB "t" "d" "x") "t" 0) "t" "e" "y") "t"
     = true).
Proof.
  apply (set_on_expired_record_starts_afresh 5
           (setTTL 0 (set 0 emptyDB "t" "d" "x") "t" 0) "t" "e" "y").
  reflexivity.
Defined.

(** ** [deleteField] *)

Section deleteField_facts.
Context `{!StdImpl}.

(** X4: [deleteField] reports success exactly when [get] would have found
    the field, and after the call, successful or not, [get] does not find
    the field at any instant. *)
Theorem deleteField_succeeds_iff_field_readable now db r f :
  ((deleteField now db r f).1 = true ↔ is_Some (get now db r f)) ∧
  (∀ now', get now' (deleteField now db r f).2 r f = None).
Proof.
  unfold deleteField, get at 1.
  destruct (isRecordExpired now db r) eqn:Hexp.
  - split; [split; [done|by intros [? ?]]|].
    intros now'. unfold get, isRecordExpired. cbn.
    by rewrite !lookup_delete_eq.
  - destruct (records_ db !! r) as [fields|] eqn:Hr.
    + destruct (fields !! f) as [v|] eqn:Hf.
      * case_decide as Hemp; cbn [fst snd].
        -- split; [split; [by eauto|done]|]. intros now'.
           unfold get, isRecordExpired. cbn. by rewrite !lookup_delete_eq.
        -- split; [split; [by eauto|done]|]. intros now'.
           unfold get. cbn [records_]. rewrite lookup_insert_eq.
           rewrite lookup_delete_eq. by case_match.
      * split; [split; [done|by intros [? ?]]|]. intros now'. cbn [snd].
        unfold get. rewrite Hr, Hf. by destruct (isRecordExpired now' db r).
    + split; [split; [done|by intros [? ?]]|]. intros now'. cbn [snd].
      unfold get. rewrite Hr. by destruct (isRecordExpired now' db r).
Qed.

(** X5: [deleteField] on one field leaves every other field of every record
    as a later [get] sees it; this includes the call that finds the record
    expired and purges it. *)
Theorem deleteField_leaves_other_fields now now' db r f r' f' :
  now ≤ now' → (r', f') ≠ (r, f) →
  get now' (deleteField now db r f).2 r' f' = get now' db r' f'.
Proof.
  intros Hle Hne. unfold deleteField.
  destruct (isRecordExpired now db r) eqn:Hexp.
  - cbn [snd]. rewrite !get_live.
    by rewrite (live_record_cleanup_expired now).
  - destruct (records_ db !! r) as [fields|] eqn:Hr; [|done].
    destruct (fields !! f) as [v|] eqn:Hf; [|done].
    case_decide as Hemp; cbn [snd].
    + change (mkDB (delete r (records_ db)) (delete r (ttlMap_ db)))
        with (cleanupExpiredRecord db r).
      destruct (decide (r = r')) as [<-|Hnr].
      * rewrite !get_live, live_record_cleanup_eq. cbn.
        unfold live_record. destruct (isRecordExpired now' db r); [done|].
        rewrite Hr. cbn. symmetry.
        apply (f_equal (λ m : gmap string string, m !! f')) in Hemp.
        rewrite lookup_empty, lookup_delete_ne in Hemp by congruence. done.
      * by rewrite !get_live, live_record_cleanup_ne.
    + unfold get. rewrite (isRecordExpired_ttl_eq now' _ db) by done.
      destruct (isRecordExpired now' db r'); [done|]. cbn [records_].
      destruct (decide (r = r')) as [<-|Hnr].
      * rewrite lookup_insert_eq, Hr. apply lookup_delete_ne. congruence.
      * by rewrite lookup_insert_ne.
Qed.

(** X6: a [deleteField] that reports failure changes nothing a read can
    see, at the instant of the call or later; the purge of an expired
    record that it may perform is invisible. *)
Theorem failed_deleteField_is_invisible now now' db r f :
  (deleteField now db r f).1 = false → now ≤ now' →
  ∀ q, ask now' (deleteField now db r f).2 q = ask now' db q.
Proof.
  unfold deleteField. intros Hfail Hle.
  destruct (isRecordExpired now db r) eqn:Hexp.
  - cbn [snd]. apply reads_agree. intros r'.
    by apply (live_record_cleanup_expired now).
  - destruct (records_ db !! r) as [fields|]; [|done].
    destruct (fields !! f); [|done]. by case_decide.
Qed.

End deleteField_facts.

Lemma deleteField_leaves_other_fields_witness :
  get 9 (deleteField 3 (set 0 (set 0 emptyDB "a" "k" "v") "a" "x" "w")
           "a" "x").2 "a" "k"
  = get 9 (set 0 (set 0 emptyDB "a" "k" "v") "a" "x" "w") "a" "k".
Proof.
  apply (deleteField_leaves_other_fields 3 9); [vm_compute; discriminate|].
  intros Heq. discriminate Heq.
Defined.

Lemma failed_deleteField_is_invisible_witness :
  ask 9 (deleteField 3 (setTTL 0 (set 0 emptyDB "t" "d" "x") "t" 0)
           "t" "d").2 (QGet "t" "d")
  = ask 9 (setTTL 0 (set 0 emptyDB "t" "d" "x") "t" 0) (QGet "t" "d").
Proof.
  apply (failed_deleteField_is_invisible 3 9);
    [reflexivity|vm_compute; discriminate].
Defined.

(** ** The enumerations against the point reads *)

Section enumerations.
Context `{!StdImpl}.

(** X7: [getFields] lists, in sorted order and without repetition, exactly
    the fields for which [get] finds a value. *)
Theorem getFields_lists_readable_fields now db r :
  StronglySorted string_le (getFields now db r) ∧
  NoDup (getFields now db r) ∧
  (∀ f, f ∈ getFields now db r ↔ is_Some (get now db r f)).
Proof.
  rewrite getFields_live. setoid_rewrite get_live.
  destruct (live_record now db r) as [fields|]; cbn.
  - split_and!.
    + apply sort_strings_sorted.
    + rewrite sort_strings_perm. apply iteration_NoDup_fst.
    + intros f. by rewrite elem_of_sort_strings, elem_of_iteration_keys.
  - split_and!; [constructor|constructor|].
    intros f. rewrite elem_of_nil. split; [done|by intros [? ?]].
Qed.

(** X8: [getAllRecordIds] lists, in sorted order and without repetition,
    exactly the ids for which [hasRecord] is true, and [getRecordCount] is
    their number; the count is zero exactly when [hasRecord] is false for
    every id. *)
Theorem getAllRecordIds_lists_existing_records now db :
  StronglySorted string_le (getAllRecordIds now db) ∧
  NoDup (getAllRecordIds now db) ∧
  (∀ r, r ∈ getAllRecordIds now db ↔ hasRecord now db r = true) ∧
  getRecordCount now db = length (getAllRecordIds now db) ∧
  (getRecordCount now db = 0%nat ↔ ∀ r, hasRecord now db r = false).
Proof.
  assert (∀ r, r ∈ getAllRecordIds now db ↔ hasRecord now db r = true)
    as Hiff.
  { intros r. rewrite elem_of_getAllRecordIds_live, hasRecord_live.
    by rewrite bool_decide_eq_true. }
  split_and!; [apply sort_strings_sorted|apply getAllRecordIds_NoDup
              |done|done|].
  unfold getRecordCount. split.
  - intros Hlen%nil_length_inv r.
    destruct (hasRecord now db r) eqn:Hr; [|done].
    apply Hiff in Hr. rewrite Hlen in Hr. by apply elem_of_nil in Hr.
  - intros Hnone. destruct (getAllRecordIds now db) as [|r l] eqn:Hl; [done|].
    assert (hasRecord now db r = true) as Hr by (apply Hiff; left).
    by rewrite Hnone in Hr.
Qed.

(** X9: [getRecordsByFieldValue(f, v)] lists exactly the ids for which
    [get(id, f)] returns [v], and each of them is listed by
    [getAllRecordIds]. *)
Theorem getRecordsByFieldValue_agrees_with_get now db f v :
  (∀ r, r ∈ getRecordsByFieldValue now db f v ↔ get now db r f = Some v) ∧
  (∀ r, r ∈ getRecordsByFieldValue now db f v → r ∈ getAllRecordIds now db).
Proof.
  split; intros r.
  - rewrite elem_of_getRecordsByFieldValue_live, get_live.
    destruct (live_record now db r) as [fields|]; cbn.
    + split; [by intros (? & [= <-] & ?)|by eauto].
    + split; [by intros (? & ? & _)|done].
  - rewrite elem_of_getRecordsByFieldValue_live, elem_of_getAllRecordIds_live.
    intros (fields & -> & _). by eexists.
Qed.

End enumerations.

(** ** The traversal order of the hash tables does not show *)

Lemma write_all_ext {A} (f g : A → string) (l : list A) :
  (∀ x, f x = g x) → write_all f l = write_all g l.
Proof.
  intros Hfg. induction l as [|x l IH]; [done|]. cbn. by rewrite Hfg, IH.
Qed.

Lemma iteration_any_order (H1 H2 : StdImpl) {A} (m : gmap string A) :
  @iteration H1 A m ≡ₚ @iteration H2 A m.
Proof. by rewrite !iteration_perm. Qed.

Lemma getFields_any_order (H1 H2 : StdImpl) now db r :
  @getFields H1 now db r = @getFields H2 now db r.
Proof.
  unfold getFields. destruct (isRecordExpired now db r); [done|].
  destruct (records_ db !! r) as [fields|]; [|done].
  apply sort_strings_unique. by rewrite (iteration_any_order H1 H2).
Qed.

Lemma getAllRecordIds_any_order (H1 H2 : StdImpl) now db :
  @getAllRecordIds H1 now db = @getAllRecordIds H2 now db.
Proof.
  unfold getAllRecordIds. apply sort_strings_unique.
  by rewrite (iteration_any_order H1 H2).
Qed.

(** X10: the vectors returned by [getFields], [getAllRecordIds] and
    [getRecordsByFieldValue], and the number returned by [getRecordCount],
    are the same whatever order the hash tables are traversed in. *)
Theorem sorted_reads_ignore_traversal_order (H1 H2 : StdImpl) now db :
  (∀ r, @getFields H1 now db r = @getFields H2 now db r) ∧
  @getAllRecordIds H1 now db = @getAllRecordIds H2 now db ∧
  (∀ f v, @getRecordsByFieldValue H1 now db f v
          = @getRecordsByFieldValue H2 now db f v) ∧
  @getRecordCount H1 now db = @getRecordCount H2 now db.
Proof.
  split_and!.
  - intros r. apply getFields_any_order.
  - apply getAllRecordIds_any_order.
  - intros f v. unfold getRecordsByFieldValue. apply sort_strings_unique.
    by rewrite (iteration_any_order H1 H2).
  - unfold getRecordCount. by rewrite (getAllRecordIds_any_order H1 H2).
Qed.

(** X11: the text [printAllRecords] writes is the same whatever order the
    hash tables are traversed in, for one and the same clock period. *)
Theorem printAllRecords_ignores_traversal_order (H1 H2 : StdImpl) now db :
  @ticks_per_second H1 = @ticks_per_second H2 →
  @printAllRecords H1 now db = @printAllRecords H2 now db.
Proof.
  intros Htps. unfold printAllRecords.
  rewrite (getAllRecordIds_any_order H1 H2). do 2 f_equal.
  destruct (@getAllRecordIds H2 now db) as [|r l]; [done|].
  apply write_all_ext. intros r'. unfold print_record.
  rewrite (getFields_any_order H1 H2). do 3 f_equal.
  unfold print_ttl, remaining_seconds. by rewrite Htps.
Qed.

Lemma printAllRecords_ignores_traversal_order_witness :
  @printAllRecords reference_impl 3
    (setTTL 0 (set 0 (set 0 (set 0 emptyDB "b" "k" "v") "a" "y" "2")
                 "a" "x" "1") "a" 60)
  = @printAllRecords reversed_impl 3
    (setTTL 0 (set 0 (set 0 (set 0 emptyDB "b" "k" "v") "a" "y" "2")
                 "a" "x" "1") "a" 60).
Proof.
  apply (printAllRecords_ignores_traversal_order reference_impl reversed_impl).
  reflexivity.
Defined.

(** ** [setTTL] *)

Section setTTL_lifetime.
Context `{!StdImpl}.

(** X12: on a stored record, [setTTL] makes [hasRecord] true exactly at the
    instants before [now + ttlSeconds]; with a zero or negative
    [ttlSeconds] the record is gone at once. *)
Theorem setTTL_sets_the_lifetime now now' db r fields ttl :
  records_ db !! r = Some fields →
  hasRecord now' (setTTL now db r ttl) r
    = bool_decide (now' < now + ttl * ticks_per_second) ∧
  (ttl ≤ 0 → now ≤ now' → hasRecord now' (setTTL now db r ttl) r = false).
Proof.
  intros Hr. rewrite (setTTL_present _ _ _ _ _ Hr).
  unfold hasRecord, isRecordExpired. cbn [records_ ttlMap_].
  rewrite lookup_insert_eq, Hr. pose proof ticks_per_second_pos.
  split.
  - case_bool_decide.
    + symmetry. apply bool_decide_eq_false. lia.
    + rewrite bool_decide_eq_true_2 by eauto.
      symmetry. apply bool_decide_eq_true. lia.
  - intros Httl Hle. rewrite bool_decide_eq_true_2; [done|nia].
Qed.

(** X13: the TTL is not cumulative: a second [setTTL] on the same record
    replaces the first. *)
Theorem setTTL_overwrites now1 now2 db r ttl1 ttl2 :
  setTTL now2 (setTTL now1 db r ttl1) r ttl2 = setTTL now2 db r ttl2.
Proof.
  destruct (records_ db !! r) as [fields|] eqn:Hr.
  - rewrite (setTTL_present now1 _ _ _ _ Hr).
    rewrite (setTTL_present now2 db _ _ _ Hr).
    unfold setTTL. cbn [records_ ttlMap_]. rewrite Hr.
    by rewrite insert_insert_eq.
  - by rewrite (setTTL_absent now1), (setTTL_absent now2).
Qed.

End setTTL_lifetime.

Lemma setTTL_sets_the_lifetime_witness :
  hasRecord 59999999999 (setTTL 0 (set 0 emptyDB "s" "k" "v") "s" 60) "s"
    = bool_decide (59999999999 < 0 + 60 * ticks_per_second) ∧
  (60 ≤ 0 → 0 ≤ 59999999999 →
   hasRecord 59999999999 (setTTL 0 (set 0 emptyDB "s" "k" "v") "s" 60) "s"
     = false).
Proof.
  apply (setTTL_sets_the_lifetime 0 59999999999
           (set 0 emptyDB "s" "k" "v") "s" {[ "k" := "v" ]} 60).
  reflexivity.
Defined.

(** ** [expireRecords] against the reads *)

Section sweep_facts.
Context `{!StdImpl}.

Lemma sweep_lookup_cases now db r :
  (isRecordExpired now db r = true →
   records_ (expireRecords now db).2 !! r = None ∧
   ttlMap_ (expireRecords now db).2 !! r = None) ∧
  (isRecordExpired now db r = false →
   records_ (expireRecords now db).2 !! r = records_ db !! r ∧
   ttlMap_ (expireRecords now db).2 !! r = ttlMap_ db !! r).
Proof.
  rewrite expireRecords_unfold. cbn [snd].
  rewrite foldl_cleanup_records, foldl_cleanup_ttl.
  split; intros He.
  - by rewrite !decide_True by by apply elem_of_expired_ids.
  - rewrite !decide_False; [done|..];
      rewrite elem_of_expired_ids; congruence.
Qed.

Lemma live_record_expireRecords now now' db r :
  now ≤ now' →
  live_record now' (expireRecords now db).2 r = live_record now' db r.
Proof.
  intros Hle.
  destruct (sweep_lookup_cases now db r)
    as [Hexp Hlive].
  destruct (isRecordExpired now db r) eqn:He.
  - destruct (Hexp eq_refl) as [Hr Ht].
    unfold live_record at 1. unfold isRecordExpired. rewrite Hr, Ht.
    symmetry. apply live_record_expired. by apply (isRecordExpired_mono now).
  - destruct (Hlive eq_refl) as [Hr Ht].
    unfold live_record, isRecordExpired. by rewrite Hr, Ht.
Qed.

(** X14: the sweep changes nothing a read can see, at the instant of the
    sweep or later. *)
Theorem expireRecords_is_invisible now now' db :
  now ≤ now' →
  ∀ q, ask now' (expireRecords now db).2 q = ask now' db q.
Proof.
  intros Hle. apply reads_agree. intros r.
  by apply live_record_expireRecords.
Qed.

(** X15: a second sweep at the same instant finds nothing to purge: it
    returns zero and leaves the store as the first sweep left it. *)
Theorem expireRecords_twice now db :
  expireRecords now (expireRecords now db).2
  = (0, (expireRecords now db).2).
Proof.
  rewrite (expireRecords_unfold now (expireRecords now db).2).
  assert (expired_ids now (expireRecords now db).2 = []) as ->; [|done].
  destruct (expired_ids now (expireRecords now db).2) as [|r l] eqn:Hids;
    [done|].
  assert (r ∈ expired_ids now (expireRecords now db).2) as Hin
    by (rewrite Hids; left).
  apply elem_of_expired_ids, isRecordExpired_true in Hin as (e & He & Hle).
  rewrite expireRecords_ttl in He.
  apply map_lookup_filter_Some in He as [_ Hlt]. cbn in Hlt. lia.
Qed.

End sweep_facts.

Lemma expireRecords_is_invisible_witness :
  ask 9 (expireRecords 3
           (setTTL 0 (set 0 (set 0 emptyDB "p" "k" "v") "t" "d" "x")
              "t" 0)).2 QGetAllRecordIds
  = ask 9 (setTTL 0 (set 0 (set 0 emptyDB "p" "k" "v") "t" "d" "x") "t" 0)
      QGetAllRecordIds.
Proof.
  apply (expireRecords_is_invisible 3 9). vm_compute. discriminate.
Defined.

(** ** Deleting and creating again *)

Section recreate.
Context `{!StdImpl}.

Lemma set_on_absent_id now db r f v :
  records_ db !! r = None → ttlMap_ db !! r = None →
  set now db r f v = mkDB (<[r := {[ f := v ]}]> (records_ db)) (ttlMap_ db).
Proof.
  intros Hr Ht. rewrite set_live.
  - unfold fields_of. by rewrite Hr.
  - unfold isRecordExpired. by rewrite Ht.
Qed.

Lemma deleteRecord_clears_id db r :
  ttl_in_records db →
  records_ (deleteRecord db r).2 !! r = None ∧
  ttlMap_ (deleteRecord db r).2 !! r = None.
Proof.
  intros Hinv. unfold deleteRecord.
  destruct (records_ db !! r) as [fields|] eqn:Hr; cbn [snd records_ ttlMap_].
  - by rewrite !lookup_delete_eq.
  - split; [done|]. destruct (ttlMap_ db !! r) as [e|] eqn:He; [|done].
    destruct (Hinv r) as [? ?]; [by eauto|congruence].
Qed.

(** X16: when every TTL entry belongs to a stored record, a record that is
    deleted and then created again under the same id does not inherit
    anything: it holds the new field only and never expires. *)
Theorem recreated_record_inherits_nothing now db r f v :
  ttl_in_records db →
  ∀ now',
    get now' (set now (deleteRecord db r).2 r f v) r f = Some v ∧
    getFields now' (set now (deleteRecord db r).2 r f v) r = [f] ∧
    isRecordExpired now' (set now (deleteRecord db r).2 r f v) r = false.
Proof.
  intros Hinv now'.
  destruct (deleteRecord_clears_id db r Hinv) as [Hr Ht].
  rewrite (set_on_absent_id now _ r f v Hr Ht).
  unfold get, getFields, isRecordExpired. cbn [records_ ttlMap_].
  rewrite Ht, lookup_insert_eq. split_and!; [|.. |done].
  - apply lookup_singleton_eq.
  - apply Permutation_singleton_r. rewrite sort_strings_perm.
    by rewrite iteration_perm, map_to_list_singleton.
Qed.

End recreate.

Lemma recreated_record_inherits_nothing_witness :
  get 5000000000
    (set 2 (deleteRecord (setTTL 0 (set 0 emptyDB "s" "old" "x") "s" 1)
              "s").2 "s" "new" "y") "s" "new" = Some "y" ∧
  getFields 5000000000
    (set 2 (deleteRecord (setTTL 0 (set 0 emptyDB "s" "old" "x") "s" 1)
              "s").2 "s" "new" "y") "s" = ["new"] ∧
  isRecordExpired 5000000000
    (set 2 (deleteRecord (setTTL 0 (set 0 emptyDB "s" "old" "x") "s" 1)
              "s").2 "s" "new" "y") "s" = false.
Proof.
  apply (recreated_record_inherits_nothing 2
           (setTTL 0 (set 0 emptyDB "s" "old" "x") "s" 1) "s" "new" "y").
  apply setTTL_ttl_in_records, set_ttl_in_records, emptyDB_ttl_in_records.
Defined.

(** ** The clearing loop *)

Section clearing.
Context `{!StdImpl}.

Lemma foldl_deleteRecord_records db l r :
  records_ (foldl (λ db x, (deleteRecord db x).2) db l) !! r =
  if decide (r ∈ l) then None else records_ db !! r.
Proof.
  revert db. induction l as [|x l IH]; intros db; cbn [foldl].
  - case_decide as Hin; [by apply elem_of_nil in Hin|done].
  - rewrite IH.
    assert (records_ (deleteRecord db x).2 !! r =
            if decide (r = x) then None else records_ db !! r) as ->.
    { unfold deleteRecord.
      destruct (decide (r = x)) as [->|Hne];
        destruct (records_ db !! x) eqn:Hx; cbn; [|done|  |done].
      - apply lookup_delete_eq.
      - by apply lookup_delete_ne. }
    clear IH.
    destruct (decide (r ∈ l)) as [Hin|Hin];
      destruct (decide (r ∈ x :: l)) as [Hin'|Hin'];
      destruct (decide (r = x)) as [->|Hne]; try done; exfalso;
      rewrite elem_of_cons in Hin'; tauto.
Qed.

Lemma foldl_deleteRecord_ttl db l r :
  r ∉ l →
  ttlMap_ (foldl (λ db x, (deleteRecord db x).2) db l) !! r
  = ttlMap_ db !! r.
Proof.
  revert db. induction l as [|x l IH]; intros db Hin; cbn [foldl]; [done|].
  apply not_elem_of_cons in Hin as [Hne Hin]. rewrite IH by done.
  unfold deleteRecord. destruct (records_ db !! x); cbn; [|done].
  by apply lookup_delete_ne.
Qed.

Lemma live_record_clear_all now now' db r :
  now ≤ now' → live_record now' (clear_all now db) r = None.
Proof.
  intros Hle. unfold live_record, clear_all.
  rewrite foldl_deleteRecord_records.
  case_decide as Hin; [by case_match|].
  rewrite elem_of_getAllRecordIds in Hin.
  destruct (records_ db !! r) as [fields|] eqn:Hr; [|by case_match].
  destruct (isRecordExpired now db r) eqn:Hexp.
  - unfold isRecordExpired. rewrite foldl_deleteRecord_ttl.
    + fold (isRecordExpired now' db r).
      by rewrite (isRecordExpired_mono now now').
    + rewrite elem_of_getAllRecordIds. rewrite Hr, Hexp. by intros [_ ?].
  - exfalso. apply Hin. by eauto.
Qed.

(** X17: after the loop that calls [deleteRecord] on every id listed by
    [getAllRecordIds], no read finds anything, at that instant or later.
    The loop does not touch the records that were expired and not yet
    purged: they and their TTL entries stay in the tables. *)
Theorem clear_all_empties_the_store now now' db :
  now ≤ now' →
  getAllRecordIds now' (clear_all now db) = [] ∧
  (∀ r f, get now' (clear_all now db) r f = None) ∧
  (∀ r, hasRecord now' (clear_all now db) r = false) ∧
  (∀ r, isRecordExpired now db r = true →
        records_ (clear_all now db) !! r = records_ db !! r ∧
        ttlMap_ (clear_all now db) !! r = ttlMap_ db !! r).
Proof.
  intros Hle. split_and!.
  - destruct (getAllRecordIds now' (clear_all now db)) as [|r l] eqn:Hl;
      [done|].
    assert (r ∈ getAllRecordIds now' (clear_all now db)) as Hin
      by (rewrite Hl; left).
    apply elem_of_getAllRecordIds_live in Hin as [? Hin].
    by rewrite live_record_clear_all in Hin.
  - intros r f. by rewrite get_live, live_record_clear_all.
  - intros r. rewrite hasRecord_live, live_record_clear_all by done.
    apply bool_decide_eq_false. by intros [? ?].
  - intros r Hexp.
    assert (r ∉ getAllRecordIds now db) as Hin.
    { rewrite elem_of_getAllRecordIds. rewrite Hexp. by intros [_ ?]. }
    unfold clear_all. rewrite foldl_deleteRecord_records.
    by rewrite decide_False, foldl_deleteRecord_ttl.
Qed.

End clearing.

Lemma clear_all_empties_the_store_witness :
  getAllRecordIds 9 (clear_all 3 (run emptyDB demo_steps)) = [] ∧
  (∀ r f, get 9 (clear_all 3 (run emptyDB demo_steps)) r f = None) ∧
  (∀ r, hasRecord 9 (clear_all 3 (run emptyDB demo_steps)) r = false) ∧
  (∀ r, isRecordExpired 3 (run emptyDB demo_steps) r = true →
        records_ (clear_all 3 (run emptyDB demo_steps)) !! r
          = records_ (run emptyDB demo_steps) !! r ∧
        ttlMap_ (clear_all 3 (run emptyDB demo_steps)) !! r
          = ttlMap_ (run emptyDB demo_steps) !! r).
Proof.
  apply (clear_all_empties_the_store 3 9). vm_compute. discriminate.
Defined.

(** ** [getRecordCount] along [set] and [deleteRecord] *)

Section counting.
Context `{!StdImpl}.

Lemma live_record_set_eq now db r f v :
  is_Some (live_record now (set now db r f v) r).
Proof.
  unfold live_record. destruct (isRecordExpired now db r) eqn:Hexp.
  - rewrite set_expired by done. unfold isRecordExpired.
    cbn [records_ ttlMap_]. rewrite lookup_delete_eq, lookup_insert_eq.
    by eexists.
  - rewrite set_live by done.
    rewrite (isRecordExpired_ttl_eq now _ db), Hexp by done.
    cbn [records_]. rewrite lookup_insert_eq. by eexists.
Qed.

Lemma live_record_set_ne now now' db r f v r' :
  r ≠ r' →
  live_record now' (set now db r f v) r' = live_record now' db r'.
Proof.
  intros Hne. unfold live_record. destruct (isRecordExpired now db r) eqn:Hexp.
  - rewrite set_expired by done. unfold isRecordExpired.
    cbn [records_ ttlMap_].
    by rewrite lookup_delete_ne, lookup_insert_ne, lookup_delete_ne.
  - rewrite set_live by done.
    rewrite (isRecordExpired_ttl_eq now' _ db) by done.
    cbn [records_]. by rewrite lookup_insert_ne.
Qed.

Lemma live_record_deleteRecord_eq now db r :
  live_record now (deleteRecord db r).2 r = None.
Proof.
  unfold deleteRecord. destruct (records_ db !! r) eqn:Hr; cbn [snd].
  - apply (live_record_cleanup_eq now db r).
  - unfold live_record. rewrite Hr. by case_match.
Qed.

Lemma live_record_deleteRecord_ne now db r r' :
  r ≠ r' →
  live_record now (deleteRecord db r).2 r' = live_record now db r'.
Proof.
  intros Hne. unfold deleteRecord.
  destruct (records_ db !! r); cbn [snd]; [|done].
  by apply (live_record_cleanup_ne now db r r').
Qed.

Lemma hasRecord_true_live now db r :
  hasRecord now db r = true ↔ is_Some (live_record now db r).
Proof. by rewrite hasRecord_live, bool_decide_eq_true. Qed.

Lemma hasRecord_false_live now db r :
  hasRecord now db r = false ↔ live_record now db r = None.
Proof.
  rewrite hasRecord_live, bool_decide_eq_false.
  by rewrite <- eq_None_not_Some.
Qed.

(** X18: [set] raises [getRecordCount] by one when [hasRecord] was false
    for the id, and leaves it as it was otherwise. *)
Theorem getRecordCount_after_set now db r f v :
  getRecordCount now (set now db r f v) =
  if hasRecord now db r then getRecordCount now db
  else S (getRecordCount now db).
Proof.
  unfold getRecordCount.
  pose proof (live_record_set_eq now db r f v) as Hnew.
  destruct (hasRecord now db r) eqn:Hhas.
  - apply hasRecord_true_live in Hhas.
    apply Permutation_length, NoDup_Permutation;
      [apply getAllRecordIds_NoDup|apply getAllRecordIds_NoDup|].
    intros x. rewrite !elem_of_getAllRecordIds_live.
    destruct (decide (r = x)) as [<-|Hne]; [tauto|].
    by rewrite live_record_set_ne.
  - apply hasRecord_false_live in Hhas.
    change (S (length (getAllRecordIds now db)))
      with (length (r :: getAllRecordIds now db)).
    apply Permutation_length, NoDup_Permutation.
    + apply getAllRecordIds_NoDup.
    + apply NoDup_cons. split; [|apply getAllRecordIds_NoDup].
      rewrite elem_of_getAllRecordIds_live, Hhas. by intros [? ?].
    + intros x. rewrite elem_of_cons, !elem_of_getAllRecordIds_live.
      destruct (decide (r = x)) as [<-|Hne]; [by intuition|].
      rewrite live_record_set_ne by done.
      split; [by right|by intros [?|?]].
Qed.

(** X19: [deleteRecord] lowers [getRecordCount] by one when [hasRecord] was
    true for the id, and leaves it as it was otherwise (also when it
    removes a record that was expired and not yet purged). *)
Theorem getRecordCount_after_deleteRecord now db r :
  getRecordCount now db =
  if hasRecord now db r then S (getRecordCount now (deleteRecord db r).2)
  else getRecordCount now (deleteRecord db r).2.
Proof.
  unfold getRecordCount.
  pose proof (live_record_deleteRecord_eq now db r) as Hgone.
  destruct (hasRecord now db r) eqn:Hhas.
  - apply hasRecord_true_live in Hhas.
    change (S (length (getAllRecordIds now (deleteRecord db r).2)))
      with (length (r :: getAllRecordIds now (deleteRecord db r).2)).
    apply Permutation_length, NoDup_Permutation.
    + apply getAllRecordIds_NoDup.
    + apply NoDup_cons. split; [|apply getAllRecordIds_NoDup].
      rewrite elem_of_getAllRecordIds_live, Hgone. by intros [? ?].
    + intros x. rewrite elem_of_cons, !elem_of_getAllRecordIds_live.
      destruct (decide (r = x)) as [<-|Hne]; [by intuition|].
      rewrite live_record_deleteRecord_ne by done.
      split; [by right|by intros [?|?]].
  - apply hasRecord_false_live in Hhas.
    apply Permutation_length, NoDup_Permutation;
      [apply getAllRecordIds_NoDup|apply getAllRecordIds_NoDup|].
    intros x. rewrite !elem_of_getAllRecordIds_live.
    destruct (decide (r = x)) as [<-|Hne]; [by rewrite Hgone, Hhas|].
    by rewrite live_record_deleteRecord_ne.
Qed.

End counting.

(** ** No record without a field *)

Section no_empty_records.
Context `{!StdImpl}.

Lemma keeps_next_line P : keeps P next_line.
Proof.
  intros st HP. unfold next_line.
  by destruct (getline (unread st)) as [[line rest]|].
Qed.

Lemma keeps_to_int P line : keeps P (to_int line).
Proof. intros st HP. unfold to_int. by destruct (stoi line). Qed.

Lemma keeps_update_db (P : DB → Prop) f :
  (∀ db, P db → P (f db)) → keeps P (update_db f).
Proof. intros Hf st HP. cbn. by apply Hf. Qed.

Lemma keeps_ret P {A} (a : A) : keeps P (mret a).
Proof. by intros st HP. Qed.

Lemma keeps_bind P {A B} (p : parser A) (k : A → parser B) :
  keeps P p → (∀ a, keeps P (k a)) → keeps P (p ≫= k).
Proof.
  intros Hp Hk st HP. specialize (Hp st HP).
  unfold mbind, parser_bind, pbind.
  destruct (p st) as [[a| |] st1]; cbn [snd] in *; [|done..].
  by apply Hk.
Qed.

Lemma keeps_repeat_loop P n body : keeps P body → keeps P (repeat_loop n body).
Proof.
  intros Hbody. induction n as [|n IH]; cbn [repeat_loop].
  - apply (keeps_ret P tt).
  - apply keeps_bind; [done|]. by intros _.
Qed.

Lemma assign_field_no_empty_record db r f v :
  no_empty_record db →
  no_empty_record (mkDB (assign_field (records_ db) r f v) (ttlMap_ db)).
Proof.
  intros Hinv r'. cbn [records_]. unfold assign_field.
  destruct (decide (r = r')) as [<-|Hne].
  - rewrite lookup_insert_eq. intros [= Hemp].
    by apply insert_non_empty in Hemp.
  - rewrite lookup_insert_ne by done. apply Hinv.
Qed.

Lemma restore_body_no_empty_record now :
  keeps no_empty_record (restore_body now).
Proof.
  unfold restore_body, for_count, read_record, read_ttl, read_field.
  repeat first
    [ apply keeps_bind; [|intros ?]
    | apply keeps_repeat_loop
    | apply keeps_next_line
    | apply keeps_to_int ].
  - apply keeps_update_db. intros db. apply assign_field_no_empty_record.
  - apply keeps_update_db. by intros db Hinv r.
Qed.

(** Whatever the text, and whether [restore] accepts it or not, the store
    it leaves holds no record without a field. *)
Lemma restore_no_empty_record now db text :
  no_empty_record (restore now db text).2.
Proof.
  unfold restore.
  pose proof (restore_body_no_empty_record now (mkP text emptyDB)
                emptyDB_no_empty_record) as Hinv.
  destruct (restore_body now (mkP text emptyDB)) as [[[]| |] st]; cbn in *;
    [done|done|apply emptyDB_no_empty_record].
Qed.

Lemma reachable_any_no_empty_record db :
  reachable_any db → no_empty_record db.
Proof.
  induction 1 as [|now db r f v _ IH|now db r f _ IH|db r _ IH
                 |now db r ttl _ IH|now db _ IH|now db text _ _].
  - apply emptyDB_no_empty_record.
  - by apply set_no_empty_record.
  - by apply deleteField_no_empty_record.
  - destruct (deleteRecord_cases db r) as [->| ->]; [done|].
    by apply cleanup_no_empty_record.
  - by apply setTTL_no_empty_record.
  - by apply expireRecords_no_empty_record.
  - apply restore_no_empty_record.
Qed.

(** X20: in every state reached from the empty store by the mutating
    operations, [restore] of any text included, a record that [hasRecord]
    reports has at least one field: [getFields] is not empty. *)
Theorem existing_record_has_a_field db :
  reachable_any db →
  ∀ now r, hasRecord now db r = true → getFields now db r ≠ [].
Proof.
  intros Hinv%reachable_any_no_empty_record now r.
  rewrite hasRecord_true_live, getFields_live. intros [fields Hlive].
  rewrite Hlive. intros Hnil.
  assert (fields = ∅) as ->.
  { apply iteration_nil, fmap_nil_inv with (f := fst).
    apply Permutation_nil_r. by rewrite <- Hnil, sort_strings_perm. }
  unfold live_record in Hlive. destruct (isRecordExpired now db r); [done|].
  by apply (Hinv r).
Qed.

End no_empty_records.

Lemma existing_record_has_a_field_witness :
  hasRecord 5
    (deleteField 1
       (restore 0 emptyDB
          ("1" +:+ nl +:+ "a" +:+ nl +:+ "2" +:+ nl +:+ "k" +:+ nl +:+ "v"
           +:+ nl +:+ "x" +:+ nl +:+ "y" +:+ nl +:+ "0" +:+ nl +:+ "junk")).2
       "a" "k").2 "a" = true ∧
  getFields 5
    (deleteField 1
       (restore 0 emptyDB
          ("1" +:+ nl +:+ "a" +:+ nl +:+ "2" +:+ nl +:+ "k" +:+ nl +:+ "v"
           +:+ nl +:+ "x" +:+ nl +:+ "y" +:+ nl +:+ "0" +:+ nl +:+ "junk")).2
       "a" "k").2 "a" ≠ [].
Proof.
  split; [reflexivity|].
  apply existing_record_has_a_field;
    [apply any_deleteField, any_restore, any_empty|reflexivity].
Defined.

(** ** [restore] on any well-formed snapshot text *)

Section decode.
Context `{!StdImpl}.

Lemma read_record_rendered rec rest db :
  rendered_record_ok rec →
  read_record (mkP (render_record rec +:+ rest) db) =
  (Normal tt,
   mkP rest (mkDB (add_fields (records_ db) rec.1 rec.2) (ttlMap_ db))).
Proof.
  intros (Hr & Hsize & Hfields). unfold read_record, render_record.
  rewrite !string_app_assoc.
  erewrite pbind_normal by by apply next_line_line.
  erewrite pbind_normal by apply next_line_line, show_size_no_newline.
  erewrite pbind_normal by by apply to_int_show_size.
  unfold for_count. rewrite Nat2Z.id. by apply read_fields_ok.
Qed.

Lemma read_records_rendered recs rest db :
  Forall rendered_record_ok recs →
  repeat_loop (length recs) read_record
    (mkP (write_all render_record recs +:+ rest) db) =
  (Normal tt,
   mkP rest
     (mkDB (foldl (λ table rec, add_fields table rec.1 rec.2)
                  (records_ db) recs)
           (ttlMap_ db))).
Proof.
  intros Hrecs. revert db. induction Hrecs as [|rec recs Hrec _ IH]; intros db.
  - cbn. by destruct db.
  - cbn [length repeat_loop write_all foldl].
    rewrite !string_app_assoc.
    erewrite pbind_normal by by apply read_record_rendered.
    by rewrite IH.
Qed.

Lemma restore_body_rendered now recs ttls :
  Z.of_nat (length recs) ≤ INT_MAX → Forall rendered_record_ok recs →
  Z.of_nat (length ttls) ≤ INT_MAX → Forall ttl_pair_ok ttls →
  restore_body now (mkP (render_snapshot recs ttls) emptyDB) =
  (Normal tt,
   mkP EmptyString (mkDB (build_records recs) (add_ttls now ∅ ttls))).
Proof.
  intros Hn Hrecs Hm Httls. unfold restore_body, render_snapshot.
  erewrite pbind_normal by apply next_line_line, show_size_no_newline.
  erewrite pbind_normal by by apply to_int_show_size.
  unfold for_count. rewrite Nat2Z.id.
  erewrite pbind_normal by by apply read_records_rendered.
  cbn [records_ ttlMap_ emptyDB].
  erewrite pbind_normal by apply next_line_line, show_size_no_newline.
  erewrite pbind_normal by by apply to_int_show_size.
  rewrite Nat2Z.id, <- (string_app_empty_r (write_ttls _)).
  by rewrite read_ttls_ok.
Qed.

Lemma foldl_add_fields_other table recs r :
  r ∉ recs.*1 →
  foldl (λ table rec, add_fields table rec.1 rec.2) table recs !! r
  = table !! r.
Proof.
  revert table.
  induction recs as [|[x lx] recs IH]; intros table Hin; [done|].
  cbn [fmap list_fmap fst] in Hin. apply not_elem_of_cons in Hin as [Hne Hin].
  cbn [foldl fst snd]. rewrite IH by done.
  by apply add_fields_lookup_ne.
Qed.

Lemma add_fields_listed table r (l : list (string * string)) :
  table !! r = None → NoDup l.*1 →
  add_fields table r l !! r =
  match l with [] => None | _ => Some (list_to_map l) end.
Proof.
  intros Hr Hnd. rewrite add_fields_lookup, Hr. destruct l as [|p l]; [done|].
  f_equal. apply map_eq. intros k.
  rewrite foldl_insert_lookup_id by done. cbn [default].
  rewrite lookup_empty. by case_match.
Qed.

Lemma build_records_listed table recs r (l : list (string * string)) :
  NoDup recs.*1 → (∀ x, x ∈ recs.*1 → table !! x = None) →
  (r, l) ∈ recs → NoDup l.*1 →
  foldl (λ table rec, add_fields table rec.1 rec.2) table recs !! r =
  match l with [] => None | _ => Some (list_to_map l) end.
Proof.
  revert table.
  induction recs as [|[x lx] recs IH]; intros table Hnd Hfresh Hin Hl.
  { by apply elem_of_nil in Hin. }
  cbn [fmap list_fmap fst] in Hnd, Hfresh.
  apply NoDup_cons in Hnd as [Hx Hnd]. cbn [foldl fst snd].
  apply elem_of_cons in Hin as [[= <- <-]|Hin].
  - rewrite foldl_add_fields_other by done.
    apply add_fields_listed; [|done]. apply Hfresh. left.
  - apply IH; [done| |done|done].
    intros y Hy. rewrite add_fields_lookup_ne.
    + apply Hfresh. by right.
    + intros ->. done.
Qed.

(** X21: [restore] accepts every text laid out as the format prescribes
    (strings without newline, counts within [int]).  With distinct record
    ids and distinct field names, each listed record with at least one
    field is stored with exactly its listed fields, a record listed with
    no field is not created, and nothing else is stored; with distinct ids
    in the TTL section, each listed pair becomes an entry that runs out
    that many seconds after the restore, listed record or not. *)
Theorem restore_reads_snapshot now db recs ttls :
  Z.of_nat (length recs) ≤ INT_MAX → Forall rendered_record_ok recs →
  Z.of_nat (length ttls) ≤ INT_MAX → Forall ttl_pair_ok ttls →
  (restore now db (render_snapshot recs ttls)).1 = true ∧
  (NoDup recs.*1 →
   ∀ r (l : list (string * string)), (r, l) ∈ recs → NoDup l.*1 →
     records_ (restore now db (render_snapshot recs ttls)).2 !! r =
     match l with [] => None | _ => Some (list_to_map l) end) ∧
  (∀ r, r ∉ recs.*1 →
     records_ (restore now db (render_snapshot recs ttls)).2 !! r = None) ∧
  (NoDup ttls.*1 →
   ∀ r secs, (r, secs) ∈ ttls →
     ttlMap_ (restore now db (render_snapshot recs ttls)).2 !! r =
     Some (now + secs * ticks_per_second)) ∧
  (∀ r, r ∉ ttls.*1 →
     ttlMap_ (restore now db (render_snapshot recs ttls)).2 !! r = None).
Proof.
  intros Hn Hrecs Hm Httls. unfold restore.
  rewrite restore_body_rendered by done. cbn [fst snd pdb records_ ttlMap_].
  unfold build_records, add_ttls. split_and!; [done|..].
  - intros Hnd r l Hin Hl. apply build_records_listed; [done| |done|done].
    intros x _. apply lookup_empty.
  - intros r Hin. rewrite foldl_add_fields_other by done. apply lookup_empty.
  - intros Hnd r secs Hin.
    rewrite (foldl_insert_lookup (λ secs, now + secs * ticks_per_second))
      by done.
    by rewrite (elem_of_list_to_map_1 ttls r secs).
  - intros r Hin.
    rewrite (foldl_insert_other (λ secs, now + secs * ticks_per_second))
      by done.
    apply lookup_empty.
Qed.

End decode.

Lemma restore_reads_snapshot_witness :
  (restore 7 emptyDB
     (render_snapshot [("a", [("k", "v"); ("x", "y")]); ("b", [])]
                      [("a", 60); ("ghost", -5)])).1 = true ∧
  (NoDup [("a", [("k", "v"); ("x", "y")]); ("b", [])].*1 →
   ∀ r (l : list (string * string)),
     (r, l) ∈ [("a", [("k", "v"); ("x", "y")]); ("b", [])] → NoDup l.*1 →
     records_ (restore 7 emptyDB
       (render_snapshot [("a", [("k", "v"); ("x", "y")]); ("b", [])]
                        [("a", 60); ("ghost", -5)])).2 !! r =
     match l with [] => None | _ => Some (list_to_map l) end) ∧
  (∀ r, r ∉ [("a", [("k", "v"); ("x", "y")]); ("b", [])].*1 →
     records_ (restore 7 emptyDB
       (render_snapshot [("a", [("k", "v"); ("x", "y")]); ("b", [])]
                        [("a", 60); ("ghost", -5)])).2 !! r = None) ∧
  (NoDup [("a", 60); ("ghost", -5)].*1 →
   ∀ r secs, (r, secs) ∈ [("a", 60); ("ghost", -5)] →
     ttlMap_ (restore 7 emptyDB
       (render_snapshot [("a", [("k", "v"); ("x", "y")]); ("b", [])]
                        [("a", 60); ("ghost", -5)])).2 !! r =
     Some (7 + secs * ticks_per_second)) ∧
  (∀ r, r ∉ [("a", 60); ("ghost", -5)].*1 →
     ttlMap_ (restore 7 emptyDB
       (render_snapshot [("a", [("k", "v"); ("x", "y")]); ("b", [])]
                        [("a", 60); ("ghost", -5)])).2 !! r = None).
Proof.
  apply (restore_reads_snapshot 7 emptyDB
           [("a", [("k", "v"); ("x", "y")]); ("b", [])]
           [("a", 60); ("ghost", -5)]).
  - vm_compute. discriminate.
  - repeat constructor; vm_compute; discriminate.
  - vm_compute. discriminate.
  - repeat constructor; vm_compute; discriminate.
Defined.

(** ** What [backup] writes and what [restore] makes of it *)

Section snapshot_facts.
Context `{!StdImpl}.

(** The text [backup] returns is laid out as [render_snapshot]
    describes. *)
Lemma backup_is_rendered now db :
  backup now db =
  render_snapshot
    ((λ r, (r, iteration (fields_of db r))) <$> valid_record_ids now db)
    (collect_ttls now db (valid_record_ids now db)).
Proof.
  unfold backup, render_snapshot. rewrite length_fmap. do 2 f_equal.
  f_equal. induction (valid_record_ids now db) as [|r l IH]; [done|].
  cbn [write_records fmap list_fmap write_all]. rewrite IH. f_equal.
  unfold write_record, render_record, fields_of. cbn [fst snd].
  by rewrite iteration_length.
Qed.

Lemma DB_ext (a b : DB) :
  (∀ r, records_ a !! r = records_ b !! r) →
  (∀ r, ttlMap_ a !! r = ttlMap_ b !! r) → a = b.
Proof.
  destruct a as [ra ta], b as [rb tb]. cbn. intros Hr Ht.
  f_equal; by apply map_eq.
Qed.

Lemma storable_expireRecords now db :
  storable db → storable (expireRecords now db).2.
Proof.
  intros [Hsize Hrecs]. split.
  - rewrite expireRecords_records.
    pose proof (map_size_filter
      (λ p : string * gmap string string, isRecordExpired now db p.1 = false)
      (records_ db)). lia.
  - intros r [fields Hr]. rewrite expireRecords_records in Hr.
    pose proof Hr as [Hr' _]%map_lookup_filter_Some.
    unfold record_ok, fields_of.
    rewrite expireRecords_records, Hr. cbn [default].
    destruct (Hrecs r) as (Hnl & Hfit & Hfs); [by eauto|].
    unfold fields_of in Hfit, Hfs. rewrite Hr' in Hfit, Hfs. done.
Qed.

(** X22: the snapshot carries no trace of the records that are expired and
    not yet purged: the snapshot of a store and the snapshot of the same
    store after a sweep restore to the same tables. *)
Theorem backup_leaves_out_expired_records t1 t2 db target :
  storable db →
  restore t2 target (backup t1 db)
  = restore t2 target (backup t1 (expireRecords t1 db).2).
Proof.
  intros Hst. pose proof (storable_expireRecords t1 db Hst) as Hst'.
  destruct (restore_backup t1 t2 target db Hst) as (Hok & Hrec & Httl).
  destruct (restore_backup t1 t2 target _ Hst') as (Hok' & Hrec' & Httl').
  assert (∀ r,
    isRecordExpired t1 (expireRecords t1 db).2 r = false ∧
    (isRecordExpired t1 db r = true →
     records_ (expireRecords t1 db).2 !! r = None) ∧
    (isRecordExpired t1 db r = false →
     records_ (expireRecords t1 db).2 !! r = records_ db !! r ∧
     ttlMap_ (expireRecords t1 db).2 !! r = ttlMap_ db !! r)) as Hsweep.
  { intros r.
    destruct (sweep_lookup_cases t1 db r)
      as [Hexp Hlive].
    split_and!; [|by intros [? _]%Hexp|done].
    destruct (isRecordExpired t1 db r) eqn:He.
    - destruct (Hexp eq_refl) as [_ Ht]. unfold isRecordExpired.
      by rewrite Ht.
    - destruct (Hlive eq_refl) as [_ Ht]. unfold isRecordExpired in *.
      by rewrite Ht. }
  apply injective_projections; [congruence|].
  apply DB_ext; intros r; destruct (Hsweep r) as (Hl & Hgone & Hsame).
  - rewrite Hrec, Hrec'. unfold restored_record. rewrite Hl.
    destruct (isRecordExpired t1 db r).
    + by rewrite Hgone.
    + by destruct (Hsame eq_refl) as [-> _].
  - rewrite Httl, Httl'. unfold restored_ttl. rewrite Hl.
    destruct (isRecordExpired t1 db r).
    + by rewrite Hgone.
    + by destruct (Hsame eq_refl) as [-> ->].
Qed.

(** X23: what [restore] makes of the TTL of a live record, when the
    remaining seconds fit in an [int].  With less than one second left at
    backup time the TTL entry is not written, so the restored record never
    expires; otherwise the restored record has a whole number of seconds
    left, at most what it had at backup time and less than one second
    short of it. *)
Theorem restored_ttl_is_re_anchored t1 t2 db target r fields expiry :
  storable db →
  records_ db !! r = Some fields → ttlMap_ db !! r = Some expiry →
  t1 < expiry → expiry - t1 ≤ INT_MAX * ticks_per_second →
  (expiry - t1 < ticks_per_second →
   ∀ now', isRecordExpired now' (restore t2 target (backup t1 db)).2 r
           = false) ∧
  (ticks_per_second ≤ expiry - t1 →
   ∃ expiry',
     ttlMap_ (restore t2 target (backup t1 db)).2 !! r = Some expiry' ∧
     expiry - t1 - ticks_per_second < expiry' - t2 ≤ expiry - t1).
Proof.
  intros Hst Hr He Hlive Hfit.
  destruct (restore_backup t1 t2 target db Hst) as (_ & _ & Httl).
  pose proof ticks_per_second_pos as Hpos.
  assert (restored_ttl t1 t2 db r =
          if bool_decide (0 < remaining_seconds t1 expiry)
          then Some (t2 + to_int32 (remaining_seconds t1 expiry)
                          * ticks_per_second)
          else None) as Hrt.
  { unfold restored_ttl.
    assert (isRecordExpired t1 db r = false) as ->.
    { apply isRecordExpired_false. intros e' He'.
      assert (e' = expiry) as -> by congruence. done. }
    by rewrite Hr, He. }
  unfold remaining_seconds in Hrt.
  rewrite Z.quot_div_nonneg in Hrt by lia.
  split.
  - intros Hshort now'. unfold isRecordExpired. rewrite Httl, Hrt.
    rewrite Z.div_small by lia. done.
  - intros Hlong.
    assert (1 ≤ (expiry - t1) `div` ticks_per_second) as Hge
      by (apply Z.div_le_lower_bound; lia).
    assert ((expiry - t1) `div` ticks_per_second ≤ INT_MAX) as Hle
      by (apply Z.div_le_upper_bound; lia).
    rewrite bool_decide_eq_true_2 in Hrt by lia.
    rewrite to_int32_small in Hrt by (unfold in_int, INT_MIN; lia).
    eexists. split; [by rewrite Httl, Hrt|].
    pose proof (Z.mul_div_le (expiry - t1) ticks_per_second Hpos).
    pose proof (Z.mul_succ_div_gt (expiry - t1) ticks_per_second Hpos).
    lia.
Qed.

(** X24: the snapshot of a store in which [hasRecord] is false for every
    id, empty or holding expired records only, is the two count lines
    [0] and [0]. *)
Theorem backup_without_live_record now db :
  (∀ r, hasRecord now db r = false) →
  backup now db = "0" +:+ nl +:+ "0" +:+ nl.
Proof.
  intros Hnone.
  assert (valid_record_ids now db = []) as Hids.
  { destruct (valid_record_ids now db) as [|r l] eqn:Hl; [done|].
    assert (r ∈ valid_record_ids now db) as Hin by (rewrite Hl; left).
    apply elem_of_valid_record_ids in Hin as [Hr Hlive].
    specialize (Hnone r). unfold hasRecord in Hnone. rewrite Hlive in Hnone.
    by apply bool_decide_eq_false in Hnone. }
  unfold backup. by rewrite Hids.
Qed.

End snapshot_facts.

Lemma backup_leaves_out_expired_records_witness :
  restore 20 emptyDB (backup 10 (run emptyDB demo_steps))
  = restore 20 emptyDB
      (backup 10 (expireRecords 10 (run emptyDB demo_steps)).2).
Proof.
  apply (backup_leaves_out_expired_records 10 20 (run emptyDB demo_steps)).
  exact demo_storable.
Defined.

Lemma restored_ttl_is_re_anchored_witness :
  (5000000002 - 10 < ticks_per_second →
   ∀ now',
     isRecordExpired now'
       (restore 20 emptyDB (backup 10 (run emptyDB demo_steps))).2 "t"
     = false) ∧
  (ticks_per_second ≤ 5000000002 - 10 →
   ∃ expiry',
     ttlMap_ (restore 20 emptyDB (backup 10 (run emptyDB demo_steps))).2
       !! "t" = Some expiry' ∧
     5000000002 - 10 - ticks_per_second < expiry' - 20 ≤ 5000000002 - 10).
Proof.
  apply (restored_ttl_is_re_anchored 10 20 (run emptyDB demo_steps) emptyDB
           "t" {[ "d" := "x" ]} 5000000002).
  - exact demo_storable.
  - reflexivity.
  - reflexivity.
  - reflexivity.
  - vm_compute. discriminate.
Defined.

Lemma backup_without_live_record_witness :
  backup 9 (clear_all 3 (run emptyDB demo_steps))
  = "0" +:+ nl +:+ "0" +:+ nl.
Proof.
  apply backup_without_live_record.
  intros r. apply hasRecord_false_live, (live_record_clear_all 3 9).
  vm_compute. discriminate.
Defined.
